(** * airis-mcp-supabase-selfhost: the SQL safety guard and the catalog digest

    A shallow embedding of the MCP server's tool handlers
    ([sbsh_introspect_schema], [sbsh_execute_sql], [sbsh_postgrest_get],
    [sbsh_get_table_doc]) and of the two regular expressions that guard SQL
    execution, followed by the properties the specification states about
    them.

    Conventions of the embedding:
    - a JavaScript string is the list of its UTF-16 code units ([str]);
    - a regular expression is a syntax tree run by a backtracking matcher in
      continuation-passing style over end indices, as ECMAScript defines it;
    - a handler is a computation that appends to a trace of engine events
      (connect, query, release, fetch) and either returns or throws; the
      trace survives a throw, so that "no query was issued" is a statement
      about the trace;
    - the PostgreSQL engine and the PostgREST endpoint are oracles passed to
      the handlers. *)

From Stdlib Require Import String Ascii DecimalString.
From Stdlib Require Import List Bool Arith ZArith NArith Lia.
Import ListNotations.

Set Implicit Arguments.
Set Warnings "-register-all".

(** ** Strings *)

(** A JavaScript string: its sequence of UTF-16 code units. *)
Definition str := list N.

(** A literal of the source, written as a Rocq string of ASCII characters. *)
Definition js (x : string) : str :=
  List.map N_of_ascii (list_ascii_of_string x).
Arguments js x%_string.

(** The double quote, U+0022. *)
Definition dquote : str := [34%N].

Definition chr_eqb (a b : N) : bool := N.eqb a b.

Fixpoint str_eqb (a b : str) : bool :=
  match a, b with
  | [], [] => true
  | x :: a', y :: b' => chr_eqb x y && str_eqb a' b'
  | _, _ => false
  end.

Definition in_range (lo hi c : N) : bool := N.leb lo c && N.leb c hi.

(** [\w] without the [u] flag: [[A-Za-z0-9_]]. *)
Definition is_word (c : N) : bool :=
  in_range 97 122 c || in_range 65 90 c || in_range 48 57 c || N.eqb c 95.

(** [\s], which is also what [String.prototype.trim] strips: WhiteSpace
    (TAB, VT, FF, SP, NBSP, ZWNBSP and the Unicode space separators) and
    LineTerminator (LF, CR, LS, PS). *)
Definition is_space (c : N) : bool :=
  in_range 9 13 c || N.eqb c 32 || N.eqb c 160 || N.eqb c 5760
  || in_range 8192 8202 c || N.eqb c 8232 || N.eqb c 8233 || N.eqb c 8239
  || N.eqb c 8287 || N.eqb c 12288 || N.eqb c 65279.

(** Case folding as an ASCII pattern character sees it.  Without the [u]
    flag, Canonicalize maps a code unit to its upper case unless that would
    turn a non-ASCII unit into an ASCII one; so against an ASCII pattern
    character only the ASCII letters fold. *)
Definition canonicalize (c : N) : N :=
  if in_range 97 122 c then (c - 32)%N else c.

Definition chr_match (ignoreCase : bool) (x c : N) : bool :=
  if ignoreCase then N.eqb (canonicalize x) (canonicalize c) else N.eqb x c.

(** ** Regular expressions *)

Inductive regex : Type :=
| Empty                         (* the empty alternative *)
| Char (c : N)                  (* a pattern character *)
| Class (p : N -> bool)         (* a character class escape such as \s *)
| WordB                         (* \b *)
| Start                         (* ^ *)
| Seq (r1 r2 : regex)
| Alt (r1 r2 : regex)           (* r1|r2 *)
| Star (r : regex).             (* r*, greedy *)

(** [r+] is [r] followed by [r*]. *)
Definition Plus (r : regex) : regex := Seq r (Star r).

(** The characters of a keyword, in sequence. *)
Fixpoint word (w : str) : regex :=
  match w with
  | [] => Empty
  | c :: w' => Seq (Char c) (word w')
  end.

(** A disjunction, nested to the right as the grammar nests it. *)
Fixpoint alts (rs : list regex) : regex :=
  match rs with
  | [] => Empty
  | [r] => r
  | r :: rs' => Alt r (alts rs')
  end.

(** IsWordChar(e): false at index -1 and at the end of the input. *)
Definition word_char_at (input : str) (e : nat) : bool :=
  match nth_error input e with
  | Some c => is_word c
  | None => false
  end.

Definition word_char_before (input : str) (e : nat) : bool :=
  match e with
  | O => false
  | S e' => word_char_at input e'
  end.

(** RepeatMatcher for [r*], greedy: one more iteration of [m] is tried
    before the continuation, and an iteration that consumed nothing is given
    up.  The fuel is the number of characters left; every kept iteration
    consumes one at least. *)
Fixpoint star_loop (m : (nat -> bool) -> nat -> bool) (k : nat -> bool)
    (fuel : nat) (e : nat) {struct fuel} : bool :=
  match fuel with
  | O => k e
  | S fuel' =>
      m (fun e' => if Nat.ltb e e' then star_loop m k fuel' e' else false) e
      || k e
  end.

(** The assertion [\b] at index [e]. *)
Definition wordb (input : str) (e : nat) : bool :=
  xorb (word_char_before input e) (word_char_at input e).

Section Matcher.
Variable ignoreCase : bool.
Variable input : str.

(** The matcher of [r]: from end index [e], match [r] and then the
    continuation [k]. *)
Fixpoint rmatch (r : regex) (k : nat -> bool) (e : nat) {struct r} : bool :=
  match r with
  | Empty => k e
  | Char c =>
      match nth_error input e with
      | Some x => chr_match ignoreCase x c && k (S e)
      | None => false
      end
  | Class p =>
      match nth_error input e with
      | Some x => p x && k (S e)
      | None => false
      end
  | WordB => if wordb input e then k e else false
  | Start => if Nat.eqb e 0 then k e else false
  | Seq r1 r2 => rmatch r1 (rmatch r2 k) e
  | Alt r1 r2 => rmatch r1 k e || rmatch r2 k e
  | Star r1 => star_loop (rmatch r1) k (length input - e) e
  end.

(** [RegExp.prototype.test] of a regex without the [g] and [y] flags: a
    match is looked for from every index, 0 to the length included. *)
Definition test (r : regex) : bool :=
  existsb (rmatch r (fun _ => true)) (seq 0 (S (length input))).
End Matcher.

(** ** SQL safety guards *)

(** [/\b(INSERT|UPDATE|...|SET\s+ROLE|BEGIN|COMMIT|ROLLBACK)\b/i] *)
Definition banned : regex :=
  Seq WordB
    (Seq (alts [ word (js "INSERT"); word (js "UPDATE"); word (js "DELETE"); word (js "MERGE");
                 word (js "TRUNCATE"); word (js "ALTER"); word (js "DROP"); word (js "CREATE");
                 word (js "REINDEX"); word (js "VACUUM"); word (js "GRANT"); word (js "REVOKE");
                 word (js "COPY"); word (js "ANALYZE");
                 Seq (word (js "SET")) (Seq (Plus (Class is_space)) (word (js "ROLE")));
                 word (js "BEGIN"); word (js "COMMIT"); word (js "ROLLBACK") ])
         WordB).

Definition isMutatingSql (sql : str) : bool := test true sql banned.

(** [/^\s*EXPLAIN\b/i] *)
Definition isExplain (sql : str) : bool :=
  test true sql
    (Seq Start (Seq (Star (Class is_space)) (Seq (word (js "EXPLAIN")) WordB))).


(** ** JavaScript values

    What a JSON-RPC request can carry, plus [undefined] for what it leaves
    out.  Numbers are the integers, which doubles hold exactly below 2^53
    and [String] prints in plain decimal. *)

Inductive jsval : Type :=
| VUndefined
| VNull
| VBool (b : bool)
| VNum (z : Z)
| VStr (s : str)
| VArr (elems : list jsval)
| VObj (props : list (str * jsval)).

Definition dec (z : Z) : str := js (NilZero.string_of_int (Z.to_int z)).

(** [String(v)]; an array joins its elements with a comma, [null] and
    [undefined] elements giving the empty string. *)
Fixpoint String_ (v : jsval) : str :=
  match v with
  | VUndefined => js "undefined"
  | VNull => js "null"
  | VBool true => js "true"
  | VBool false => js "false"
  | VNum z => dec z
  | VStr s => s
  | VArr elems =>
      (fix join (l : list jsval) : str :=
         let elt x := match x with
                      | VUndefined | VNull => []
                      | _ => String_ x
                      end in
         match l with
         | [] => []
         | [x] => elt x
         | x :: l' => elt x ++ js "," ++ join l'
         end) elems
  | VObj _ => js "[object Object]"
  end.

(** [v ?? d] *)
Definition nullish (v d : jsval) : jsval :=
  match v with
  | VUndefined | VNull => d
  | _ => v
  end.



(** ** String methods *)

Fixpoint drop_space (s : str) : str :=
  match s with
  | c :: s' => if is_space c then drop_space s' else s
  | [] => []
  end.

(** [s.trim()] *)
Definition trim (s : str) : str := rev (drop_space (rev (drop_space s))).

(** [!s]: the empty string is the only falsy string. *)
Definition falsy_str (s : str) : bool :=
  match s with
  | [] => true
  | _ => false
  end.

Definition dot : N := 46%N.

(** [s.includes('.')] *)
Definition includes_dot (s : str) : bool := existsb (N.eqb dot) s.

(** [s.split(sep)] for a separator of one character: every occurrence
    separates; the empty string gives [['']]. *)
Fixpoint split_on (sep : N) (s : str) : list str :=
  match s with
  | [] => [[]]
  | c :: s' =>
      if N.eqb c sep then [] :: split_on sep s'
      else match split_on sep s' with
           | h :: t => (c :: h) :: t
           | [] => [[c]]
           end
  end.

(** [s.split('.')] *)
Definition split_dot (s : str) : list str := split_on dot s.

(** [const [a, b] = arr]: a missing element is [undefined], further
    elements are ignored. *)
Definition destructure2 (arr : list str) : jsval * jsval :=
  let at_ i := match nth_error arr i with
               | Some s => VStr s
               | None => VUndefined
               end in
  (at_ 0, at_ 1).

(** [rows.slice(0, limit)] for an integral [limit]: a negative end counts
    from the end of the array. *)
Definition slice0 (A : Type) (l : list A) (limit : Z) : list A :=
  let len := Z.of_nat (length l) in
  let final := if (limit <? 0)%Z then Z.max (len + limit) 0 else Z.min limit len in
  firstn (Z.to_nat final) l.

(** ** Errors, events and the handler monad *)

(** What a handler can throw: an [Error] it builds itself, or whatever the
    PostgreSQL driver or [fetch] rejected with, passed on untouched. *)
Inductive exn : Type :=
| JsError (message : str)         (* throw new Error(message) *)
| EngineError (message : str).    (* rejection of pool.connect, client.query, fetch *)

(** The statements a handler sends; the catalog queries are fixed texts of
    the source, [Sql] carries the caller's text. *)
Inductive statement : Type :=
| ColumnsQuery | IndexesQuery | ConstraintsQuery | PoliciesQuery
| DocColumnsQuery | DocConstraintsQuery | DocPoliciesQuery
| Sql (text : str).

Inductive event : Type :=
| Connect                                       (* pool.connect() *)
| Query (q : statement) (args : list jsval)     (* client.query(q, args) *)
| Release                                       (* client.release() *)
| Fetch (url : str).                            (* fetch(url, GET) *)

(** A computation extends the trace and returns or throws. *)
Definition M (A : Type) : Type := list event -> list event * (exn + A).

Definition ret (A : Type) (a : A) : M A := fun t => (t, inr a).

Definition throw (A : Type) (e : exn) : M A := fun t => (t, inl e).

Definition bind (A B : Type) (m : M A) (f : A -> M B) : M B :=
  fun t => match m t with
           | (t', inl e) => (t', inl e)
           | (t', inr a) => f a t'
           end.

(** An awaited call to the outside: the event is recorded, the oracle's
    answer is the outcome. *)
Definition await (A : Type) (ev : event) (answer : exn + A) : M A :=
  fun t => (t ++ [ev], answer).


(** [try { body } finally { client.release() }] *)
Definition try_finally_release (A : Type) (body : M A) : M A :=
  fun t => match body t with
           | (t', r) => (t' ++ [Release], r)
           end.

Notation "x <- m ;; k" := (bind m (fun x => k))
  (at level 61, m at next level, right associativity).
Notation "'guard' b 'else_throw' e ;; k" := (if b then k else throw _ e)
  (at level 61, b at next level, e at next level, right associativity).

(** Run a handler from the empty trace. *)
Definition run (A : Type) (m : M A) : list event * (exn + A) := m [].

Definition outcome (A : Type) (m : M A) : exn + A := snd (run m).

(** ** Configuration *)

Record Config : Type := {
  READ_ONLY : bool;
  FEATURES : list str;            (* a Set: only [has] is used *)
  POSTGREST_URL : str;
  POSTGREST_JWT : str
}.

(** [set.has(x)] *)
Definition has (set : list str) (x : str) : bool := existsb (str_eqb x) set.

(** ** Catalog rows and query results *)

Record ColumnRow : Type := {
  table_schema : str; table_name : str; column_name : str;
  data_type : str; is_nullable : str
}.

Record IndexRow : Type := {
  schemaname : str; tablename : str; indexname : str; indexdef : str
}.

Record ConstraintRow : Type := {
  con_schema : str; con_table : str; conname : str; contype : str
}.

Record PolicyRow : Type := {
  pol_schema : str; pol_table : str; policy_name : str; cmd : str
}.

Record Field : Type := { field_name : str; dataTypeID : Z }.

Record QueryResult : Type := {
  rows : list jsval; rowCount : jsval; fields : list Field
}.

(** [fetch]'s response, with its body read both ways. *)
Record Response : Type := {
  ok : bool; status : Z; text : str; json : exn + jsval
}.

(** The world outside the process.  Each oracle answers one kind of call;
    [URLSearchParams] serialisation is the platform's. *)
Record Engine : Type := {
  pool_connect : option exn;
  run_columns : jsval -> exn + list ColumnRow;
  run_indexes : jsval -> exn + list IndexRow;
  run_constraints : jsval -> exn + list ConstraintRow;
  run_policies : jsval -> exn + list PolicyRow;
  run_sql : str -> exn + QueryResult;
  run_doc_columns : jsval -> jsval -> exn + list jsval;
  run_doc_constraints : jsval -> jsval -> exn + list jsval;
  run_doc_policies : jsval -> jsval -> exn + list jsval;
  url_search_params : list (str * str) -> str;
  fetch : str -> exn + Response
}.

(** [await pool.connect()] *)
Definition connect (eng : Engine) : M unit :=
  await Connect (match pool_connect eng with
                 | Some e => inl e
                 | None => inr tt
                 end).

(** ** Arguments of a tool call

    The properties of [params] the handlers read.  [limit] is [None] when
    absent or [null], else the number sent, taken among the integers. *)
Record Params : Type := {
  arg_schemas : jsval;
  arg_sql : jsval;
  arg_limit : option Z;
  arg_table : jsval;
  arg_query : jsval
}.

Definition no_params : Params :=
  {| arg_schemas := VUndefined; arg_sql := VUndefined; arg_limit := None;
     arg_table := VUndefined; arg_query := VUndefined |}.

(** ** sbsh_introspect_schema: the summary map and its digest *)

Record Column : Type := { col_name : str; col_type : str; nullable : bool }.
Record Index : Type := { idx_name : str; idx_def : str }.
Record Constraint : Type := { cons_name : str; cons_type : str }.
Record Policy : Type := { rls_name : str; rls_cmd : str }.

(** A value of [map]. *)
Record Entry : Type := {
  schema : str;
  table : str;
  columns : list Column;
  indexes : list Index;
  constraints : list Constraint;
  rls : list Policy
}.

(** [map: Record<string, any>].  Every key holds a dot, so none is an array
    index and none meets a property of [Object.prototype]: the object
    enumerates its keys in insertion order and [map[key]] is [undefined]
    until the key is set.  An association list in insertion order says as
    much. *)
Definition TableMap : Type := list (str * Entry).

(** [`${schema}.${table}`] *)
Definition key_of (schema_ table_ : str) : str := schema_ ++ dot :: table_.

Definition keys (m : TableMap) : list str := List.map fst m.

(** [map[key]] *)
Fixpoint lookup (m : TableMap) (key : str) : option Entry :=
  match m with
  | [] => None
  | (k, e) :: m' => if str_eqb key k then Some e else lookup m' key
  end.

(** A mutation of the object held at [map[key]]. *)
Fixpoint modify (key : str) (f : Entry -> Entry) (m : TableMap) : TableMap :=
  match m with
  | [] => []
  | (k, e) :: m' => if str_eqb key k then (k, f e) :: m' else (k, e) :: modify key f m'
  end.

(** [map[key] ||= e]: entries are objects, hence truthy. *)
Definition ensure (key : str) (e : Entry) (m : TableMap) : TableMap :=
  match lookup m key with
  | Some _ => m
  | None => m ++ [(key, e)]
  end.

Definition push_column (c : Column) (e : Entry) : Entry :=
  {| schema := schema e; table := table e; columns := columns e ++ [c];
     indexes := indexes e; constraints := constraints e; rls := rls e |}.

Definition push_index (i : Index) (e : Entry) : Entry :=
  {| schema := schema e; table := table e; columns := columns e;
     indexes := indexes e ++ [i]; constraints := constraints e; rls := rls e |}.

Definition push_constraint (c : Constraint) (e : Entry) : Entry :=
  {| schema := schema e; table := table e; columns := columns e;
     indexes := indexes e; constraints := constraints e ++ [c]; rls := rls e |}.

Definition push_policy (p : Policy) (e : Entry) : Entry :=
  {| schema := schema e; table := table e; columns := columns e;
     indexes := indexes e; constraints := constraints e; rls := rls e ++ [p] |}.

Definition col_key (row : ColumnRow) : str := key_of (table_schema row) (table_name row).
Definition idx_key (i : IndexRow) : str := key_of (schemaname i) (tablename i).
Definition cons_key (c : ConstraintRow) : str := key_of (con_schema c) (con_table c).
Definition rls_key (p : PolicyRow) : str := key_of (pol_schema p) (pol_table p).

(** The object literals the loops build. *)
Definition new_entry (row : ColumnRow) : Entry :=
  {| schema := table_schema row; table := table_name row;
     columns := []; indexes := []; constraints := []; rls := [] |}.

Definition column_of (row : ColumnRow) : Column :=
  {| col_name := column_name row;
     col_type := data_type row;
     nullable := str_eqb (is_nullable row) (js "YES") |}.

Definition index_of (i : IndexRow) : Index :=
  {| idx_name := indexname i; idx_def := indexdef i |}.

Definition constraint_of (c : ConstraintRow) : Constraint :=
  {| cons_name := conname c; cons_type := contype c |}.

Definition policy_of (p : PolicyRow) : Policy :=
  {| rls_name := policy_name p; rls_cmd := cmd p |}.

(** Body of [for (const row of cols.rows)]. *)
Definition add_column (m : TableMap) (row : ColumnRow) : TableMap :=
  let key := col_key row in
  let m1 := ensure key (new_entry row) m in
  modify key (push_column (column_of row)) m1.

(** [if (map[key]) map[key].<collection>.push(...)], the body of the other
    three loops. *)
Definition attach (R : Type) (key_ : R -> str) (push : R -> Entry -> Entry)
    (m : TableMap) (r : R) : TableMap :=
  let key := key_ r in
  match lookup m key with
  | Some _ => modify key (push r) m
  | None => m
  end.

(** Body of [for (const i of idx.rows)]. *)
Definition add_index : TableMap -> IndexRow -> TableMap :=
  attach idx_key (fun i => push_index (index_of i)).

(** Body of [for (const c of cons.rows)]. *)
Definition add_constraint : TableMap -> ConstraintRow -> TableMap :=
  attach cons_key (fun c => push_constraint (constraint_of c)).

(** Body of [for (const p of rls.rows)]. *)
Definition add_policy : TableMap -> PolicyRow -> TableMap :=
  attach rls_key (fun p => push_policy (policy_of p)).

(** The columns of several rows pushed onto one entry, in order. *)
Definition push_columns (l : list ColumnRow) (e : Entry) : Entry :=
  fold_left (fun e r => push_column (column_of r) e) l e.

(** The four loops, in the order of the source. *)
Definition build_map (cols : list ColumnRow) (idx : list IndexRow)
    (cons : list ConstraintRow) (pols : list PolicyRow) : TableMap :=
  let m0 := fold_left add_column cols [] in
  let m1 := fold_left add_index idx m0 in
  let m2 := fold_left add_constraint cons m1 in
  fold_left add_policy pols m2.

Record DigestEntry : Type := {
  d_schema : str;
  d_table : str;
  cols : list str;
  idx_count : nat;
  cons_count : nat;
  d_rls : bool
}.

(** [`${c.name}:${c.type}${c.nullable ? '' : '!'}`] *)
Definition render_column (c : Column) : str :=
  col_name c ++ js ":" ++ col_type c ++ (if nullable c then [] else js "!").

Definition digest_entry (t : Entry) : DigestEntry :=
  {| d_schema := schema t;
     d_table := table t;
     cols := List.map render_column (columns t);
     idx_count := length (indexes t);
     cons_count := length (constraints t);
     d_rls := Nat.ltb 0 (length (rls t)) |}.

(** [Object.values(map).map(...)] *)
Definition digest_of (m : TableMap) : list DigestEntry :=
  List.map (fun kv => digest_entry (snd kv)) m.


Definition feature_disabled (feature : str) : exn :=
  JsError (js "Feature " ++ dquote ++ feature ++ dquote ++ js " is disabled").





(** ** sbsh_execute_sql *)

Inductive ExecResult : Type :=
| Explain (plan : list jsval)                        (* type: 'explain' *)
| QueryRows (rows_ : list jsval) (rowCount_ : jsval) (* type: 'query' *)
            (truncated : bool) (fields_ : list Field).

Definition sql_required : exn := JsError (js "SQL query is required").

Definition read_only_denial : exn :=
  JsError (js "READ_ONLY mode: DML/DDL/DCL operations are blocked. Only SELECT and EXPLAIN are allowed.").

(** The safety check: [true] when the statement may go on to the engine. *)
Definition safety_check (read_only : bool) (sql : str) : bool :=
  if read_only && negb (isExplain sql)
  then (if isMutatingSql sql then false else true)
  else true.

(** [Number(params?.limit ?? 100)] *)
Definition requested_limit (params : Params) : Z :=
  match arg_limit params with
  | Some l => l
  | None => 100
  end.

(** [Math.min(Number(params?.limit ?? 100), 1000)] *)
Definition effective_limit (params : Params) : Z :=
  Z.min (requested_limit params) 1000.

Definition sbsh_execute_sql (cfg : Config) (eng : Engine) (params : Params)
  : M ExecResult :=
  guard has (FEATURES cfg) (js "database") else_throw feature_disabled (js "database") ;;
  let sql := String_ (nullish (arg_sql params) (VStr [])) in
  let limit := effective_limit params in
  guard negb (falsy_str (trim sql)) else_throw sql_required ;;
  guard safety_check (READ_ONLY cfg) sql else_throw read_only_denial ;;
  _ <- connect eng ;;
  try_finally_release (
    if isExplain sql then
      result <- await (Query (Sql sql) []) (run_sql eng sql) ;;
      ret (Explain (rows result))
    else
      result <- await (Query (Sql sql) []) (run_sql eng sql) ;;
      ret (QueryRows (slice0 (rows result) limit)
                     (rowCount result)
                     (Z.ltb limit (Z.of_nat (length (rows result))))
                     (fields result))).

(** ** sbsh_postgrest_get *)


Definition table_required : exn := JsError (js "Table name is required").



(** ** sbsh_get_table_doc *)

Record TableDoc : Type := {
  doc_schema : jsval;
  doc_table : jsval;
  doc_columns : list jsval;
  doc_constraints : list jsval;
  rls_policies : list jsval;
  rls_enabled : bool
}.

(** [tableInput.includes('.') ? tableInput.split('.') : ['public', tableInput]],
    destructured into [[schema, table]]. *)
Definition resolve_table (tableInput : str) : jsval * jsval :=
  if includes_dot tableInput
  then destructure2 (split_dot tableInput)
  else (VStr (js "public"), VStr tableInput).

Definition sbsh_get_table_doc (cfg : Config) (eng : Engine) (params : Params)
  : M TableDoc :=
  guard has (FEATURES cfg) (js "docs") else_throw feature_disabled (js "docs") ;;
  let tableInput := String_ (nullish (arg_table params) (VStr [])) in
  guard negb (falsy_str tableInput) else_throw table_required ;;
  let (schema_, table_) := resolve_table tableInput in
  _ <- connect eng ;;
  try_finally_release (
    cols_ <- await (Query DocColumnsQuery [schema_; table_])
                   (run_doc_columns eng schema_ table_) ;;
    cons <- await (Query DocConstraintsQuery [schema_; table_])
                  (run_doc_constraints eng schema_ table_) ;;
    pols <- await (Query DocPoliciesQuery [schema_; table_])
                  (run_doc_policies eng schema_ table_) ;;
    ret {| doc_schema := schema_;
           doc_table := table_;
           doc_columns := cols_;
           doc_constraints := cons;
           rls_policies := pols;
           rls_enabled := Nat.ltb 0 (length pols) |}).

(** ** The tool table *)





(** The names [listTools] advertises, in its order. *)
Definition listTools (cfg : Config) : list str :=
  (if has (FEATURES cfg) (js "database")
   then [js "sbsh_introspect_schema"; js "sbsh_execute_sql"] else [])
  ++ (if has (FEATURES cfg) (js "postgrest") then [js "sbsh_postgrest_get"] else [])
  ++ (if has (FEATURES cfg) (js "docs") then [js "sbsh_get_table_doc"] else []).

(** ** The classifier as the specification words it *)

Definition to_lower (c : N) : N := if in_range 65 90 c then (c + 32)%N else c.

(** Equal up to the case of ASCII letters. *)
Fixpoint same_ignoring_case (a b : str) : bool :=
  match a, b with
  | [], [] => true
  | x :: a', y :: b' => N.eqb (to_lower x) (to_lower y) && same_ignoring_case a' b'
  | _, _ => false
  end.

(** The [n] code units of [s] from index [i] (fewer at the end). *)
Definition sub (s : str) (i n : nat) : str := firstn n (skipn i s).

(** A whole word: no word character touches it on either side. *)
Definition whole_word (s : str) (i j : nat) : bool :=
  negb (word_char_before s i) && negb (word_char_at s j).

(** The text [tok] stands in [s] at index [i], as a whole word, up to case. *)
Definition occurs_at (tok s : str) (i : nat) : bool :=
  same_ignoring_case (sub s i (length tok)) tok
  && whole_word s i (i + length tok).

Definition contains_token (tok s : str) : bool :=
  existsb (occurs_at tok s) (seq 0 (S (length s))).

(** The deny-list, token by token as the specification prints it. *)
Definition deny_list : list str :=
  [ js "INSERT"; js "UPDATE"; js "DELETE"; js "MERGE"; js "TRUNCATE";
    js "ALTER"; js "DROP"; js "CREATE"; js "REINDEX"; js "VACUUM"; js "GRANT";
    js "REVOKE"; js "COPY"; js "ANALYZE"; js "SET ROLE"; js "BEGIN";
    js "COMMIT"; js "ROLLBACK" ].

(** [classify_is_mutating]: some token of the deny-list occurs. *)
Definition classify_is_mutating (s : str) : bool :=
  existsb (fun tok => contains_token tok s) deny_list.

(** A token as the pattern takes it: one keyword, or two keywords with a
    run of one or more whitespace characters in_range them. *)
Inductive token : Type :=
| Keyword (w : str)
| Keywords (w1 w2 : str).

(** [n] whitespace characters stand in [s] from index [i]. *)
Definition spaces_at (s : str) (i n : nat) : bool :=
  Nat.eqb (length (sub s i n)) n && forallb is_space (sub s i n).

Definition token_at (tok : token) (s : str) (i : nat) : bool :=
  match tok with
  | Keyword w => occurs_at w s i
  | Keywords w1 w2 =>
      existsb (fun n =>
                 same_ignoring_case (sub s i (length w1)) w1
                 && spaces_at s (i + length w1) n
                 && same_ignoring_case (sub s (i + length w1 + n) (length w2)) w2
                 && whole_word s i (i + length w1 + n + length w2))
              (seq 1 (length s))
  end.

Definition deny_tokens : list token :=
  [ Keyword (js "INSERT"); Keyword (js "UPDATE"); Keyword (js "DELETE");
    Keyword (js "MERGE"); Keyword (js "TRUNCATE"); Keyword (js "ALTER");
    Keyword (js "DROP"); Keyword (js "CREATE"); Keyword (js "REINDEX");
    Keyword (js "VACUUM"); Keyword (js "GRANT"); Keyword (js "REVOKE");
    Keyword (js "COPY"); Keyword (js "ANALYZE");
    Keywords (js "SET") (js "ROLE");
    Keyword (js "BEGIN"); Keyword (js "COMMIT"); Keyword (js "ROLLBACK") ].

Definition contains_deny_token (s : str) : bool :=
  existsb (fun tok => existsb (token_at tok s) (seq 0 (S (length s)))) deny_tokens.

(** The pattern of a token. *)
Definition token_regex (tok : token) : regex :=
  match tok with
  | Keyword w => word w
  | Keywords w1 w2 => Seq (word w1) (Seq (Plus (Class is_space)) (word w2))
  end.

(** A keyword: not empty, made of word characters. *)
Definition keyword_ok (w : str) : bool := negb (falsy_str w) && forallb is_word w.

Definition token_ok (tok : token) : bool :=
  match tok with
  | Keyword w => keyword_ok w
  | Keywords w1 w2 => keyword_ok w1 && keyword_ok w2
  end.

(** The feature that governs a tool: the one [listTools] advertises it
    under, which is also the one its handler checks first. *)
Definition governing_feature (toolName : str) : option str :=
  if str_eqb toolName (js "sbsh_introspect_schema") then Some (js "database")
  else if str_eqb toolName (js "sbsh_execute_sql") then Some (js "database")
  else if str_eqb toolName (js "sbsh_postgrest_get") then Some (js "postgrest")
  else if str_eqb toolName (js "sbsh_get_table_doc") then Some (js "docs")
  else None.

(** ** Table names as the specification splits them *)

(** The text before the first dot (all of it when there is none). *)
Fixpoint upto_dot (s : str) : str :=
  match s with
  | [] => []
  | c :: s' => if N.eqb c dot then [] else c :: upto_dot s'
  end.

(** The text after the first dot (nothing when there is none). *)
Fixpoint after_dot (s : str) : str :=
  match s with
  | [] => []
  | c :: s' => if N.eqb c dot then s' else after_dot s'
  end.

(** ** The digest in terms of the catalog rows *)

(** The rows of a result set that belong to the table of key [k]. *)
Definition rows_of (R : Type) (key : R -> str) (k : str) (l : list R) : list R :=
  filter (fun r => str_eqb (key r) k) l.

(** A column row as the digest prints it: the mark is there unless
    [is_nullable] is ['YES']. *)
Definition render_row (row : ColumnRow) : str :=
  column_name row ++ js ":" ++ data_type row
  ++ (if str_eqb (is_nullable row) (js "YES") then [] else js "!").


Definition digest_key (d : DigestEntry) : str := key_of (d_schema d) (d_table d).

(** ** Sample configurations, engines and calls *)

(** [new Set(env.split(',').map(s => s.trim()))], the value of [FEATURES]
    for the environment variable [env]. *)
Definition parse_features (env : str) : list str :=
  List.map trim (split_on 44%N env).

(** The default environment: safe mode, every feature. *)
Definition safe_cfg : Config :=
  {| READ_ONLY := true; FEATURES := parse_features (js "database,docs,postgrest");
     POSTGREST_URL := js "http://127.0.0.1:54321/rest/v1"; POSTGREST_JWT := js "jwt" |}.

(** [FEATURES=postgrest]: neither the database tools nor the docs tool. *)
Definition bare_cfg : Config :=
  {| READ_ONLY := true; FEATURES := parse_features (js "postgrest");
     POSTGREST_URL := js "http://127.0.0.1:54321/rest/v1"; POSTGREST_JWT := js "jwt" |}.

(** A catalog held in memory: the scoped queries keep the rows whose schema
    is one of the strings of the array they are given. *)
Record Catalog : Type := {
  cat_columns : list ColumnRow;
  cat_indexes : list IndexRow;
  cat_constraints : list ConstraintRow;
  cat_policies : list PolicyRow;
  cat_rows : list jsval          (* what any other statement returns *)
}.

Definition in_scope (schemas : jsval) (s : str) : bool :=
  match schemas with
  | VArr elems => existsb (fun v => match v with
                                    | VStr x => str_eqb x s
                                    | _ => false
                                    end) elems
  | _ => false
  end.

Definition engine_of (c : Catalog) : Engine :=
  {| pool_connect := None;
     run_columns := fun schemas =>
       inr (filter (fun r => in_scope schemas (table_schema r)) (cat_columns c));
     run_indexes := fun schemas =>
       inr (filter (fun r => in_scope schemas (schemaname r)) (cat_indexes c));
     run_constraints := fun schemas =>
       inr (filter (fun r => in_scope schemas (con_schema r)) (cat_constraints c));
     run_policies := fun schemas =>
       inr (filter (fun r => in_scope schemas (pol_schema r)) (cat_policies c));
     run_sql := fun _ =>
       inr {| rows := cat_rows c; rowCount := VNum (Z.of_nat (length (cat_rows c)));
              fields := [] |};
     run_doc_columns := fun _ _ => inr [];
     run_doc_constraints := fun _ _ => inr [];
     run_doc_policies := fun _ _ => inr [];
     url_search_params := fun _ => [];
     fetch := fun _ => inl (EngineError (js "fetch failed")) |}.

(** Scenario A: [public.users] with [id uuid NOT NULL], [email text NULL],
    a primary key and one policy; an index and a constraint of a table that
    has no column row come along. *)
Definition users_catalog : Catalog :=
  {| cat_columns :=
       [ {| table_schema := js "public"; table_name := js "users";
            column_name := js "id"; data_type := js "uuid"; is_nullable := js "NO" |};
         {| table_schema := js "public"; table_name := js "users";
            column_name := js "email"; data_type := js "text"; is_nullable := js "YES" |} ];
     cat_indexes :=
       [ {| schemaname := js "public"; tablename := js "users";
            indexname := js "users_pkey"; indexdef := js "CREATE UNIQUE INDEX users_pkey" |};
         {| schemaname := js "public"; tablename := js "ghost";
            indexname := js "ghost_idx"; indexdef := js "CREATE INDEX ghost_idx" |} ];
     cat_constraints :=
       [ {| con_schema := js "public"; con_table := js "users";
            conname := js "users_pkey"; contype := js "p" |};
         {| con_schema := js "public"; con_table := js "ghost";
            conname := js "ghost_check"; contype := js "c" |} ];
     cat_policies :=
       [ {| pol_schema := js "public"; pol_table := js "users";
            policy_name := js "own_rows"; cmd := js "r" |} ];
     cat_rows := [VNum 1; VNum 2; VNum 3] |}.

(** Scenario C: a table of 1500 rows. *)
Definition big_catalog : Catalog :=
  {| cat_columns := []; cat_indexes := []; cat_constraints := [];
     cat_policies := []; cat_rows := repeat VNull 1500 |}.

Definition sql_call (sql : str) (limit : option Z) : Params :=
  {| arg_schemas := VUndefined; arg_sql := VStr sql; arg_limit := limit;
     arg_table := VUndefined; arg_query := VUndefined |}.


Definition table_call (t : jsval) : Params :=
  {| arg_schemas := VUndefined; arg_sql := VUndefined; arg_limit := None;
     arg_table := t; arg_query := VUndefined |}.

(** * Properties *)

(** ** The regular expressions *)

Ltac nbool :=
  unfold chr_match, canonicalize, to_lower, is_word, is_space, in_range in *;
  repeat match goal with
         | |- context [N.leb ?a ?b] => destruct (N.leb_spec a b)
         | |- context [N.eqb ?a ?b] => destruct (N.eqb_spec a b)
         | H : context [N.leb ?a ?b] |- _ => destruct (N.leb_spec a b)
         | H : context [N.eqb ?a ?b] |- _ => destruct (N.eqb_spec a b)
         end; simpl in *; try congruence; try lia.

Lemma chr_match_lower (x c : N) :
  chr_match true x c = N.eqb (to_lower x) (to_lower c).
Proof. nbool. Qed.

Lemma to_lower_is_word (x c : N) :
  to_lower x = to_lower c -> is_word x = is_word c.
Proof. intros H. nbool. Qed.

Lemma skipn_nth_error (s : str) (e : nat) :
  skipn e s = match nth_error s e with
              | Some x => x :: skipn (S e) s
              | None => []
              end.
Proof.
  revert e; induction s as [|c s IH]; intros [|e]; simpl; try reflexivity.
  apply IH.
Qed.

Lemma sub_step (s : str) (e n : nat) :
  sub s e (S n) = match nth_error s e with
                  | Some x => x :: sub s (S e) n
                  | None => []
                  end.
Proof.
  unfold sub. rewrite (skipn_nth_error s e).
  destruct (nth_error s e); reflexivity.
Qed.

Lemma rmatch_word (s w : str) (k : nat -> bool) (e : nat) :
  rmatch true s (word w) k e
  = same_ignoring_case (sub s e (length w)) w && k (e + length w).
Proof.
  revert e; induction w as [|c w IH]; intros e.
  - simpl. rewrite Nat.add_0_r. reflexivity.
  - cbn [word rmatch length]. rewrite sub_step.
    destruct (nth_error s e) as [x|]; [|reflexivity].
    rewrite IH, chr_match_lower. cbn [same_ignoring_case].
    rewrite <- Nat.add_succ_comm, andb_assoc. reflexivity.
Qed.

Lemma spaces_at_0 (s : str) (e : nat) : spaces_at s e 0 = true.
Proof. reflexivity. Qed.

Lemma spaces_at_S (s : str) (e n : nat) :
  spaces_at s e (S n) = match nth_error s e with
                        | Some x => is_space x && spaces_at s (S e) n
                        | None => false
                        end.
Proof.
  unfold spaces_at. rewrite sub_step.
  destruct (nth_error s e) as [x|]; [|reflexivity].
  cbn [length forallb].
  change (S (length (sub s (S e) n)) =? S n) with (length (sub s (S e) n) =? n).
  destruct (is_space x), (length (sub s (S e) n) =? n); reflexivity.
Qed.

Lemma spaces_at_bound (s : str) (e n : nat) :
  spaces_at s e n = true -> e + n <= max e (length s).
Proof.
  revert e; induction n as [|n IH]; intros e H; [lia|].
  rewrite spaces_at_S in H.
  destruct (nth_error s e) as [x|] eqn:E; [|discriminate].
  apply andb_true_iff in H as [_ H]. apply IH in H.
  assert (e < length s) by (apply nth_error_Some; congruence). lia.
Qed.

Lemma star_space (s : str) (k : nat -> bool) (fuel e : nat) :
  fuel = length s - e ->
  star_loop (rmatch true s (Class is_space)) k fuel e = true
  <-> exists n, spaces_at s e n = true /\ k (e + n) = true.
Proof.
  revert e; induction fuel as [|fuel IH]; intros e Hf.
  - cbn [star_loop]. split.
    + intros H. exists 0. rewrite Nat.add_0_r. auto.
    + intros [[|n] [Hs Hk]]; [rewrite Nat.add_0_r in Hk; exact Hk|].
      rewrite spaces_at_S in Hs.
      destruct (nth_error s e) eqn:E; [|discriminate].
      assert (e < length s) by (apply nth_error_Some; congruence). lia.
  - cbn [star_loop rmatch]. rewrite orb_true_iff.
    assert (He : (e <? S e) = true) by (apply Nat.ltb_lt; lia).
    split.
    + intros [H|H].
      * destruct (nth_error s e) as [x|] eqn:E; [|discriminate].
        apply andb_true_iff in H as [Hx H]. rewrite He in H.
        apply IH in H; [|lia]. destruct H as [n [Hs Hk]].
        exists (S n). rewrite spaces_at_S, E, Hx, Hs.
        rewrite <- Nat.add_succ_comm. auto.
      * exists 0. rewrite Nat.add_0_r. auto.
    + intros [[|n] [Hs Hk]].
      * right. rewrite Nat.add_0_r in Hk. exact Hk.
      * left. rewrite spaces_at_S in Hs.
        destruct (nth_error s e) as [x|] eqn:E; [|discriminate].
        apply andb_true_iff in Hs as [Hx Hs]. rewrite Hx, He. simpl.
        apply IH; [lia|]. exists n. rewrite Nat.add_succ_comm. auto.
Qed.

Lemma plus_space (s : str) (k : nat -> bool) (e : nat) :
  rmatch true s (Plus (Class is_space)) k e
  = existsb (fun n => spaces_at s e n && k (e + n)) (seq 1 (length s)).
Proof.
  apply eq_iff_eq_true. rewrite existsb_exists.
  unfold Plus. cbn [rmatch]. split.
  - intros H. destruct (nth_error s e) as [x|] eqn:E; [|discriminate].
    apply andb_true_iff in H as [Hx H].
    apply star_space in H; [|reflexivity]. destruct H as [n [Hs Hk]].
    assert (Hsp : spaces_at s e (S n) = true) by (rewrite spaces_at_S, E, Hx, Hs; reflexivity).
    exists (S n). split.
    + apply in_seq. apply spaces_at_bound in Hsp.
      assert (e < length s) by (apply nth_error_Some; congruence). lia.
    + rewrite Hsp. rewrite <- Nat.add_succ_comm. exact Hk.
  - intros [n [Hin H]]. apply in_seq in Hin.
    apply andb_true_iff in H as [Hs Hk].
    destruct n as [|n]; [lia|]. rewrite spaces_at_S in Hs.
    destruct (nth_error s e) as [x|] eqn:E; [|discriminate].
    apply andb_true_iff in Hs as [Hx Hs]. rewrite Hx. simpl.
    apply star_space; [reflexivity|]. exists n. rewrite Nat.add_succ_comm. auto.
Qed.

Lemma same_ic_word_char (s w : str) (e : nat) :
  same_ignoring_case (sub s e (length w)) w = true ->
  forallb is_word w = true ->
  forall j, j < length w -> word_char_at s (e + j) = true.
Proof.
  revert e; induction w as [|c w IH]; intros e Hs Hw j Hj; [simpl in Hj; lia|].
  cbn [length] in Hs. rewrite sub_step in Hs.
  destruct (nth_error s e) as [x|] eqn:E; [|discriminate].
  cbn [same_ignoring_case forallb] in Hs, Hw.
  apply andb_true_iff in Hs as [Hx Hs]. apply andb_true_iff in Hw as [Hc Hw].
  destruct j as [|j].
  - rewrite Nat.add_0_r. unfold word_char_at. rewrite E.
    apply N.eqb_eq in Hx. rewrite (to_lower_is_word _ _ Hx). exact Hc.
  - rewrite <- Nat.add_succ_comm. apply IH; auto. simpl in Hj; lia.
Qed.

Lemma keyword_first (s w : str) (e : nat) :
  keyword_ok w = true ->
  same_ignoring_case (sub s e (length w)) w = true ->
  word_char_at s e = true.
Proof.
  intros Hk Hs. apply andb_true_iff in Hk as [Hne Hw].
  rewrite <- (Nat.add_0_r e). apply (same_ic_word_char s w e Hs Hw).
  destruct w; [discriminate | simpl; lia].
Qed.

Lemma keyword_last (s w : str) (e : nat) :
  keyword_ok w = true ->
  same_ignoring_case (sub s e (length w)) w = true ->
  word_char_before s (e + length w) = true.
Proof.
  intros Hk Hs. apply andb_true_iff in Hk as [Hne Hw].
  destruct w as [|c w]; [discriminate|].
  cbn [length]. rewrite Nat.add_succ_r. cbn [word_char_before].
  apply (same_ic_word_char s (c :: w) e Hs Hw). simpl; lia.
Qed.

Lemma rmatch_wordb (s : str) (k : nat -> bool) (e : nat) :
  rmatch true s WordB k e = wordb s e && k e.
Proof. cbn [rmatch]. destruct (wordb s e); reflexivity. Qed.

Lemma andb_existsb (A : Type) (b : bool) (f : A -> bool) (l : list A) :
  b && existsb f l = existsb (fun x => b && f x) l.
Proof.
  induction l as [|x l IH]; simpl; [apply andb_false_r|].
  rewrite <- IH. destruct b; reflexivity.
Qed.

Lemma existsb_pointwise (A : Type) (f g : A -> bool) (l : list A) :
  (forall x, f x = g x) -> existsb f l = existsb g l.
Proof. intros H. induction l as [|x l IH]; simpl; [|rewrite H, IH]; reflexivity. Qed.

Lemma existsb_swap (A B : Type) (f : A -> B -> bool) (la : list A) (lb : list B) :
  existsb (fun a => existsb (f a) lb) la = existsb (fun b => existsb (fun a => f a b) la) lb.
Proof.
  apply eq_iff_eq_true. rewrite !existsb_exists. split.
  - intros [a [Ha H]]. apply existsb_exists in H as [b [Hb H]].
    exists b. split; [exact Hb|]. apply existsb_exists. eauto.
  - intros [b [Hb H]]. apply existsb_exists in H as [a [Ha H]].
    exists a. split; [exact Ha|]. apply existsb_exists. eauto.
Qed.

Lemma rmatch_seq (s : str) (r1 r2 : regex) (k : nat -> bool) (e : nat) :
  rmatch true s (Seq r1 r2) k e = rmatch true s r1 (rmatch true s r2 k) e.
Proof. reflexivity. Qed.

Lemma token_match (s : str) (tok : token) (e : nat) :
  token_ok tok = true ->
  wordb s e && rmatch true s (token_regex tok) (rmatch true s WordB (fun _ => true)) e
  = token_at tok s e.
Proof.
  destruct tok as [w|w1 w2]; cbn [token_ok token_regex token_at]; intros Hok.
  - rewrite rmatch_word, rmatch_wordb. unfold occurs_at, whole_word, wordb.
    destruct (same_ignoring_case (sub s e (length w)) w) eqn:Hs;
      [|rewrite andb_false_r; reflexivity].
    rewrite (keyword_first s w e Hok Hs), (keyword_last s w e Hok Hs).
    destruct (word_char_before s e), (word_char_at s (e + length w)); reflexivity.
  - apply andb_true_iff in Hok as [Hok1 Hok2].
    rewrite rmatch_seq, rmatch_word, rmatch_seq, plus_space, !andb_existsb. apply existsb_pointwise. intros n.
    rewrite rmatch_word, rmatch_wordb. unfold whole_word, wordb.
    destruct (same_ignoring_case (sub s e (length w1)) w1) eqn:Hs1;
      [|rewrite andb_false_r; reflexivity].
    destruct (spaces_at s (e + length w1) n); [|rewrite andb_false_r; reflexivity].
    destruct (same_ignoring_case (sub s (e + length w1 + n) (length w2)) w2) eqn:Hs2;
      [|rewrite !andb_false_r; reflexivity].
    rewrite (keyword_first s w1 e Hok1 Hs1), (keyword_last s w2 _ Hok2 Hs2).
    destruct (word_char_before s e), (word_char_at s (e + length w1 + n + length w2));
      reflexivity.
Qed.

Lemma rmatch_alts (s : str) (rs : list regex) (k : nat -> bool) (e : nat) :
  rs <> [] ->
  rmatch true s (alts rs) k e = existsb (fun r => rmatch true s r k e) rs.
Proof.
  induction rs as [|r rs IH]; intros Hne; [congruence|].
  destruct rs as [|r' rs].
  - simpl. rewrite orb_false_r. reflexivity.
  - change (alts (r :: r' :: rs)) with (Alt r (alts (r' :: rs))).
    cbn [rmatch existsb]. rewrite IH by discriminate. reflexivity.
Qed.

Lemma banned_tokens :
  banned = Seq WordB (Seq (alts (List.map token_regex deny_tokens)) WordB).
Proof. reflexivity. Qed.

Lemma existsb_map_compose (A B : Type) (g : A -> B) (f : B -> bool) (l : list A) :
  existsb f (List.map g l) = existsb (fun x => f (g x)) l.
Proof. induction l as [|x l IH]; simpl; [|rewrite IH]; reflexivity. Qed.

Lemma tokens_match (s : str) (e : nat) (l : list token) :
  forallb token_ok l = true ->
  existsb (fun tok => wordb s e
                      && rmatch true s (token_regex tok)
                           (rmatch true s WordB (fun _ => true)) e) l
  = existsb (fun tok => token_at tok s e) l.
Proof.
  induction l as [|tok l IH]; [reflexivity|].
  cbn [forallb existsb]. intros H. apply andb_true_iff in H as [Hok Hl].
  rewrite token_match, IH by assumption. reflexivity.
Qed.

Lemma deny_tokens_ok : forallb token_ok deny_tokens = true.
Proof. vm_compute. reflexivity. Qed.

Lemma banned_at (s : str) (e : nat) :
  rmatch true s banned (fun _ => true) e
  = existsb (fun tok => token_at tok s e) deny_tokens.
Proof.
  rewrite banned_tokens, rmatch_seq, rmatch_wordb, rmatch_seq.
  rewrite rmatch_alts by discriminate.
  rewrite existsb_map_compose, andb_existsb.
  apply tokens_match, deny_tokens_ok.
Qed.

Lemma isMutatingSql_tokens (s : str) :
  isMutatingSql s = contains_deny_token s.
Proof.
  unfold isMutatingSql, test, contains_deny_token.
  rewrite existsb_pointwise
    with (g := fun e => existsb (fun tok => token_at tok s e) deny_tokens)
    by apply banned_at.
  apply existsb_swap.
Qed.

Example isExplain_leading_space : isExplain (js "  explain select 1") = true.
Proof. vm_compute. reflexivity. Qed.

Example isExplain_select : isExplain (js "select 1") = false.
Proof. vm_compute. reflexivity. Qed.

Example isMutatingSql_substring : isMutatingSql (js "select updated_at from t") = false.
Proof. vm_compute. reflexivity. Qed.

Example isMutatingSql_in_literal : isMutatingSql (js "select 'please update me'") = true.
Proof. vm_compute. reflexivity. Qed.

(** ** What each handler does, stage by stage *)

Lemma run_execute_sql (cfg : Config) (eng : Engine) (params : Params) :
  run (sbsh_execute_sql cfg eng params)
  = let sql := String_ (nullish (arg_sql params) (VStr [])) in
    if negb (has (FEATURES cfg) (js "database")) then ([], inl (feature_disabled (js "database")))
    else if falsy_str (trim sql) then ([], inl sql_required)
    else if negb (safety_check (READ_ONLY cfg) sql) then ([], inl read_only_denial)
    else match pool_connect eng with
         | Some e => ([Connect], inl e)
         | None =>
             ([Connect; Query (Sql sql) []; Release],
              match run_sql eng sql with
              | inl e => inl e
              | inr result =>
                  inr (if isExplain sql then Explain (rows result)
                       else QueryRows (slice0 (rows result) (effective_limit params))
                                      (rowCount result)
                                      (Z.ltb (effective_limit params)
                                             (Z.of_nat (length (rows result))))
                                      (fields result))
              end)
         end.
Proof.
  unfold sbsh_execute_sql, run.
  destruct (has (FEATURES cfg) (js "database")); [|reflexivity].
  cbv zeta. cbn [negb].
  destruct (falsy_str (trim _)); [reflexivity|]. cbn [negb].
  destruct (safety_check _ _); [|reflexivity]. cbn [negb].
  unfold bind, connect, await, try_finally_release, ret.
  destruct (pool_connect eng); [reflexivity|].
  cbn [app].
  destruct (isExplain _); destruct (run_sql eng _); reflexivity.
Qed.


Lemma run_get_table_doc (cfg : Config) (eng : Engine) (params : Params) :
  run (sbsh_get_table_doc cfg eng params)
  = let tableInput := String_ (nullish (arg_table params) (VStr [])) in
    let schema_ := fst (resolve_table tableInput) in
    let table_ := snd (resolve_table tableInput) in
    if negb (has (FEATURES cfg) (js "docs")) then ([], inl (feature_disabled (js "docs")))
    else if falsy_str tableInput then ([], inl table_required)
    else match pool_connect eng with
         | Some e => ([Connect], inl e)
         | None =>
             match run_doc_columns eng schema_ table_ with
             | inl e => ([Connect; Query DocColumnsQuery [schema_; table_]; Release], inl e)
             | inr cols_ =>
             match run_doc_constraints eng schema_ table_ with
             | inl e => ([Connect; Query DocColumnsQuery [schema_; table_];
                          Query DocConstraintsQuery [schema_; table_]; Release], inl e)
             | inr cons_ =>
                 ([Connect; Query DocColumnsQuery [schema_; table_];
                   Query DocConstraintsQuery [schema_; table_];
                   Query DocPoliciesQuery [schema_; table_]; Release],
                  match run_doc_policies eng schema_ table_ with
                  | inl e => inl e
                  | inr pols =>
                      inr {| doc_schema := schema_; doc_table := table_;
                             doc_columns := cols_; doc_constraints := cons_;
                             rls_policies := pols;
                             rls_enabled := Nat.ltb 0 (length pols) |}
                  end)
             end end
         end.
Proof.
  unfold sbsh_get_table_doc, run.
  destruct (has (FEATURES cfg) (js "docs")); [|reflexivity].
  cbv zeta. cbn [negb].
  destruct (falsy_str _); [reflexivity|]. cbn [negb].
  destruct (resolve_table _) as [schema_ table_]. cbn [fst snd].
  unfold bind, connect, await, try_finally_release, ret.
  destruct (pool_connect eng); [reflexivity|]. cbn [app].
  destruct (run_doc_columns eng _ _); [reflexivity|].
  destruct (run_doc_constraints eng _ _); [reflexivity|].
  destruct (run_doc_policies eng _ _); reflexivity.
Qed.



(** ** The summary map *)

Lemma str_eqb_eq (a b : str) : str_eqb a b = true <-> a = b.
Proof.
  revert b; induction a as [|x a IH]; intros [|y b]; simpl;
    try (split; [discriminate | congruence]); try tauto.
  unfold chr_eqb. rewrite andb_true_iff, N.eqb_eq, IH.
  split; [intros [-> ->]; reflexivity | intros H; injection H; auto].
Qed.

Lemma str_eqb_refl (a : str) : str_eqb a a = true.
Proof. apply str_eqb_eq; reflexivity. Qed.

Lemma str_eqb_sym (a b : str) : str_eqb a b = str_eqb b a.
Proof.
  apply eq_iff_eq_true. rewrite !str_eqb_eq. split; congruence.
Qed.

Lemma str_eqb_neq (a b : str) : str_eqb a b = false <-> a <> b.
Proof.
  rewrite <- str_eqb_eq. destruct (str_eqb a b); split; congruence.
Qed.

(** Case analysis on a comparison of keys, turning it into an equation. *)
Ltac by_key a b :=
  let E := fresh "E" in
  let N := fresh "Hne" in
  destruct (str_eqb a b) eqn:E;
  [apply str_eqb_eq in E; try subst | pose proof (proj1 (str_eqb_neq a b) E) as N].

Lemma keys_modify (k : str) (f : Entry -> Entry) (m : TableMap) :
  keys (modify k f m) = keys m.
Proof.
  induction m as [|[k' e] m IH]; [reflexivity|].
  simpl. destruct (str_eqb k k'); simpl; [|rewrite <- IH]; reflexivity.
Qed.

Lemma lookup_modify (k k' : str) (f : Entry -> Entry) (m : TableMap) :
  lookup (modify k f m) k'
  = if str_eqb k k' then option_map f (lookup m k') else lookup m k'.
Proof.
  induction m as [|[k0 e] m IH]; simpl.
  - destruct (str_eqb k k'); reflexivity.
  - by_key k k0.
    + simpl. by_key k' k0.
      * rewrite str_eqb_refl. reflexivity.
      * rewrite (str_eqb_sym k0 k'), E. reflexivity.
    + simpl. rewrite IH. by_key k' k0; [|reflexivity].
      rewrite E. reflexivity.
Qed.

Lemma lookup_app_one (m : TableMap) (k k' : str) (e : Entry) :
  lookup (m ++ [(k, e)]) k'
  = match lookup m k' with
    | Some x => Some x
    | None => if str_eqb k' k then Some e else None
    end.
Proof.
  induction m as [|[k0 e0] m IH]; simpl; [reflexivity|].
  destruct (str_eqb k' k0); [reflexivity | exact IH].
Qed.

Lemma lookup_None (m : TableMap) (k : str) :
  lookup m k = None <-> ~ In k (keys m).
Proof.
  induction m as [|[k0 e0] m IH]; simpl; [tauto|].
  by_key k k0.
  - split; [discriminate | intros H; exfalso; apply H; left; reflexivity].
  - rewrite IH. split; [intros Hn [Heq|Hin]; [congruence | tauto] | tauto].
Qed.

Lemma lookup_In (m : TableMap) (k : str) (e : Entry) :
  lookup m k = Some e -> In (k, e) m.
Proof.
  induction m as [|[k0 e0] m IH]; simpl; [discriminate|].
  by_key k k0.
  - intros H; injection H as ->. left; reflexivity.
  - intros H. right. apply IH, H.
Qed.

Lemma In_lookup (m : TableMap) (k : str) (e : Entry) :
  NoDup (keys m) -> In (k, e) m -> lookup m k = Some e.
Proof.
  induction m as [|[k0 e0] m IH]; simpl; [tauto|].
  intros Hnd [Heq|Hin].
  - injection Heq as -> ->. rewrite str_eqb_refl. reflexivity.
  - inversion Hnd as [|? ? Hnot Hnd']; subst.
    by_key k k0.
    + exfalso. apply Hnot. change k0 with (fst (k0, e)). apply in_map, Hin.
    + apply IH; assumption.
Qed.

(** *** The loops over indexes, constraints and policies *)

Section Attach.
Variable R : Type.
Variable key_ : R -> str.
Variable push : R -> Entry -> Entry.

Lemma keys_attach (m : TableMap) (r : R) :
  keys (attach key_ push m r) = keys m.
Proof.
  unfold attach. destruct (lookup m (key_ r)); [apply keys_modify | reflexivity].
Qed.

Lemma lookup_attach (m : TableMap) (r : R) (k : str) :
  lookup (attach key_ push m r) k
  = if str_eqb (key_ r) k then option_map (push r) (lookup m k) else lookup m k.
Proof.
  unfold attach. destruct (lookup m (key_ r)) eqn:L.
  - apply lookup_modify.
  - by_key (key_ r) k; [|reflexivity]. rewrite L. reflexivity.
Qed.

Lemma keys_fold_attach (rows_ : list R) (m : TableMap) :
  keys (fold_left (attach key_ push) rows_ m) = keys m.
Proof.
  revert m; induction rows_ as [|r rows_ IH]; intros m; [reflexivity|].
  simpl. rewrite IH. apply keys_attach.
Qed.

Lemma lookup_fold_attach (rows_ : list R) (m : TableMap) (k : str) :
  lookup (fold_left (attach key_ push) rows_ m) k
  = option_map (fun e => fold_left (fun e r => push r e) (rows_of key_ k rows_) e)
               (lookup m k).
Proof.
  revert m; induction rows_ as [|r rows_ IH]; intros m.
  - simpl. destruct (lookup m k); reflexivity.
  - simpl. rewrite IH, lookup_attach.
    destruct (str_eqb (key_ r) k); destruct (lookup m k); reflexivity.
Qed.

End Attach.

(** *** The loop over columns *)

Lemma lookup_add_column (m : TableMap) (row : ColumnRow) (k : str) :
  lookup (add_column m row) k
  = if str_eqb (col_key row) k
    then Some (push_column (column_of row)
                 (match lookup m k with
                  | Some e => e
                  | None => new_entry row
                  end))
    else lookup m k.
Proof.
  unfold add_column, ensure. rewrite lookup_modify.
  destruct (lookup m (col_key row)) eqn:L.
  - by_key (col_key row) k; [rewrite L|]; reflexivity.
  - rewrite lookup_app_one. by_key (col_key row) k.
    + rewrite L, str_eqb_refl. reflexivity.
    + rewrite (str_eqb_sym k), E. destruct (lookup m k); reflexivity.
Qed.

Lemma keys_add_column (m : TableMap) (row : ColumnRow) :
  keys (add_column m row)
  = match lookup m (col_key row) with
    | Some _ => keys m
    | None => keys m ++ [col_key row]
    end.
Proof.
  unfold add_column, ensure. rewrite keys_modify.
  destruct (lookup m (col_key row)); [reflexivity|].
  unfold keys. rewrite map_app. reflexivity.
Qed.

Lemma NoDup_keys_add_column (m : TableMap) (row : ColumnRow) :
  NoDup (keys m) -> NoDup (keys (add_column m row)).
Proof.
  intros Hnd. rewrite keys_add_column.
  destruct (lookup m (col_key row)) eqn:L; [exact Hnd|].
  apply lookup_None in L.
  apply NoDup_app; [exact Hnd | repeat constructor; simpl; tauto |].
  intros x Hx [<-|[]]. tauto.
Qed.

Lemma In_keys_add_column (m : TableMap) (row : ColumnRow) (k : str) :
  In k (keys (add_column m row)) <-> In k (keys m) \/ k = col_key row.
Proof.
  rewrite keys_add_column. destruct (lookup m (col_key row)) eqn:L.
  - split; [tauto|]. intros [H| ->]; [exact H|].
    apply lookup_In in L. change (col_key row) with (fst (col_key row, e)).
    apply in_map, L.
  - rewrite in_app_iff. simpl. split.
    + intros [H|[<-|[]]]; auto.
    + intros [H| ->]; auto.
Qed.

Lemma keys_fold_add_column (cols_ : list ColumnRow) (m : TableMap) :
  NoDup (keys m) ->
  NoDup (keys (fold_left add_column cols_ m))
  /\ forall k, In k (keys (fold_left add_column cols_ m))
               <-> In k (keys m) \/ In k (List.map col_key cols_).
Proof.
  revert m; induction cols_ as [|row cols_ IH]; intros m Hnd.
  - simpl. split; [exact Hnd | tauto].
  - simpl. destruct (IH (add_column m row) (NoDup_keys_add_column m row Hnd)) as [H1 H2].
    split; [exact H1|]. intros k. rewrite H2, In_keys_add_column.
    split; [intros [[H|H]|H] | intros [H|[H|H]]]; auto.
Qed.

Lemma rows_of_cons (R : Type) (key_ : R -> str) (k : str) (r : R) (l : list R) :
  rows_of key_ k (r :: l)
  = if str_eqb (key_ r) k then r :: rows_of key_ k l else rows_of key_ k l.
Proof. reflexivity. Qed.

Lemma lookup_fold_add_column (cols_ : list ColumnRow) (m : TableMap) (k : str) :
  lookup (fold_left add_column cols_ m) k
  = match rows_of col_key k cols_ with
    | [] => lookup m k
    | r :: _ => Some (push_columns (rows_of col_key k cols_)
                        (match lookup m k with
                         | Some e => e
                         | None => new_entry r
                         end))
    end.
Proof.
  revert m; induction cols_ as [|row cols_ IH]; intros m; [reflexivity|].
  cbn [fold_left]. rewrite IH, lookup_add_column, rows_of_cons.
  destruct (str_eqb (col_key row) k); [|reflexivity].
  destruct (rows_of col_key k cols_); reflexivity.
Qed.

Lemma push_columns_eq (l : list ColumnRow) (e : Entry) :
  push_columns l e
  = {| schema := schema e; table := table e;
       columns := columns e ++ List.map column_of l;
       indexes := indexes e; constraints := constraints e; rls := rls e |}.
Proof.
  unfold push_columns. revert e; induction l as [|r l IH]; intros e.
  - destruct e; simpl. rewrite app_nil_r. reflexivity.
  - cbn [fold_left]. rewrite IH. unfold push_column. simpl.
    rewrite <- app_assoc. reflexivity.
Qed.

Lemma push_indexes_eq (l : list IndexRow) (e : Entry) :
  fold_left (fun e r => push_index (index_of r) e) l e
  = {| schema := schema e; table := table e; columns := columns e;
       indexes := indexes e ++ List.map index_of l;
       constraints := constraints e; rls := rls e |}.
Proof.
  revert e; induction l as [|r l IH]; intros e.
  - destruct e; simpl. rewrite app_nil_r. reflexivity.
  - cbn [fold_left]. rewrite IH. unfold push_index. simpl.
    rewrite <- app_assoc. reflexivity.
Qed.

Lemma push_constraints_eq (l : list ConstraintRow) (e : Entry) :
  fold_left (fun e r => push_constraint (constraint_of r) e) l e
  = {| schema := schema e; table := table e; columns := columns e;
       indexes := indexes e;
       constraints := constraints e ++ List.map constraint_of l; rls := rls e |}.
Proof.
  revert e; induction l as [|r l IH]; intros e.
  - destruct e; simpl. rewrite app_nil_r. reflexivity.
  - cbn [fold_left]. rewrite IH. unfold push_constraint. simpl.
    rewrite <- app_assoc. reflexivity.
Qed.

Lemma push_policies_eq (l : list PolicyRow) (e : Entry) :
  fold_left (fun e r => push_policy (policy_of r) e) l e
  = {| schema := schema e; table := table e; columns := columns e;
       indexes := indexes e; constraints := constraints e;
       rls := rls e ++ List.map policy_of l |}.
Proof.
  revert e; induction l as [|r l IH]; intros e.
  - destruct e; simpl. rewrite app_nil_r. reflexivity.
  - cbn [fold_left]. rewrite IH. unfold push_policy. simpl.
    rewrite <- app_assoc. reflexivity.
Qed.

(** *** The map, key by key *)

Lemma lookup_build_map (cols_ : list ColumnRow) (idx : list IndexRow)
    (cons_ : list ConstraintRow) (pols : list PolicyRow) (k : str) :
  lookup (build_map cols_ idx cons_ pols) k
  = match rows_of col_key k cols_ with
    | [] => None
    | r :: _ =>
        Some {| schema := table_schema r; table := table_name r;
                columns := List.map column_of (rows_of col_key k cols_);
                indexes := List.map index_of (rows_of idx_key k idx);
                constraints := List.map constraint_of (rows_of cons_key k cons_);
                rls := List.map policy_of (rows_of rls_key k pols) |}
    end.
Proof.
  unfold build_map, add_policy, add_constraint, add_index.
  rewrite !lookup_fold_attach, lookup_fold_add_column.
  destruct (rows_of col_key k cols_) as [|r l]; [reflexivity|].
  cbn [lookup option_map].
  rewrite push_policies_eq, push_constraints_eq, push_indexes_eq, push_columns_eq.
  reflexivity.
Qed.

Lemma keys_build_map (cols_ : list ColumnRow) (idx : list IndexRow)
    (cons_ : list ConstraintRow) (pols : list PolicyRow) :
  keys (build_map cols_ idx cons_ pols) = keys (fold_left add_column cols_ []).
Proof.
  unfold build_map, add_policy, add_constraint, add_index.
  rewrite !keys_fold_attach. reflexivity.
Qed.

Lemma NoDup_keys_build_map (cols_ : list ColumnRow) (idx : list IndexRow)
    (cons_ : list ConstraintRow) (pols : list PolicyRow) :
  NoDup (keys (build_map cols_ idx cons_ pols)).
Proof.
  rewrite keys_build_map. apply keys_fold_add_column. constructor.
Qed.


Lemma rows_of_key (R : Type) (key_ : R -> str) (k : str) (l : list R) (r : R) :
  In r (rows_of key_ k l) -> key_ r = k.
Proof.
  unfold rows_of. rewrite filter_In. intros [_ H]. apply str_eqb_eq, H.
Qed.

(** An entry of the map, in terms of the four result sets. *)
Lemma entry_build_map (cols_ : list ColumnRow) (idx : list IndexRow)
    (cons_ : list ConstraintRow) (pols : list PolicyRow) (k : str) (t : Entry) :
  In (k, t) (build_map cols_ idx cons_ pols) ->
  key_of (schema t) (table t) = k
  /\ columns t = List.map column_of (rows_of col_key k cols_)
  /\ indexes t = List.map index_of (rows_of idx_key k idx)
  /\ constraints t = List.map constraint_of (rows_of cons_key k cons_)
  /\ rls t = List.map policy_of (rows_of rls_key k pols).
Proof.
  intros Hin. apply In_lookup in Hin; [|apply NoDup_keys_build_map].
  rewrite lookup_build_map in Hin.
  destruct (rows_of col_key k cols_) as [|r l] eqn:Hr; [discriminate|].
  injection Hin as <-. cbn [schema table columns indexes constraints rls].
  repeat split.
  apply (rows_of_key col_key k cols_ r). rewrite Hr. left; reflexivity.
Qed.


(** ** The safety gate of sbsh_execute_sql *)

Lemma falsy_str_false (s : str) : s <> [] -> falsy_str s = false.
Proof. destruct s; [congruence | reflexivity]. Qed.

Lemma safety_check_spec (read_only : bool) (S : str) :
  safety_check read_only S = true
  <-> read_only = false \/ isExplain S = true \/ isMutatingSql S = false.
Proof.
  unfold safety_check.
  destruct read_only, (isExplain S), (isMutatingSql S); simpl; intuition congruence.
Qed.

(** C1.  In safe mode the gate [safety_check] lets a statement [S] through
    if and only if [isExplain S] or not [isMutatingSql S]; out of safe mode
    it lets every statement through.  In safe mode ["SELECT 1"] and
    ["EXPLAIN DELETE FROM t"] pass and ["DROP TABLE t"] does not.  In the
    handler, with the database feature on and a statement that is not
    blank, the call is refused with the read-only denial, nothing having
    reached the engine, exactly when the gate says no; a statement the gate
    lets through is sent to the engine as it is. *)
Theorem execute_sql_gate :
  (forall S, safety_check true S = true
             <-> isExplain S = true \/ isMutatingSql S = false)
  /\ (forall S, safety_check false S = true)
  /\ safety_check true (js "SELECT 1") = true
  /\ safety_check true (js "DROP TABLE t") = false
  /\ safety_check true (js "EXPLAIN DELETE FROM t") = true
  /\ (forall (cfg : Config) (eng : Engine) (params : Params) (S : str),
        has (FEATURES cfg) (js "database") = true ->
        String_ (nullish (arg_sql params) (VStr [])) = S ->
        trim S <> [] ->
        (run (sbsh_execute_sql cfg eng params) = ([], inl read_only_denial)
         <-> safety_check (READ_ONLY cfg) S = false)
        /\ (safety_check (READ_ONLY cfg) S = true -> pool_connect eng = None ->
            exists r, run (sbsh_execute_sql cfg eng params)
                      = ([Connect; Query (Sql S) []; Release], r))).
Proof.
  split. { intros S. rewrite safety_check_spec. intuition discriminate. }
  split. { intros S. reflexivity. }
  split. { vm_compute. reflexivity. }
  split. { vm_compute. reflexivity. }
  split. { vm_compute. reflexivity. }
  intros cfg eng params S Hfeat HS Hne.
  rewrite run_execute_sql. cbv zeta. rewrite Hfeat, HS, (falsy_str_false Hne).
  cbn [negb]. split.
    + destruct (safety_check (READ_ONLY cfg) S); cbn [negb].
      * split; [|discriminate]. destruct (pool_connect eng); discriminate.
      * split; reflexivity.
    + intros Hs Hc. rewrite Hs, Hc. cbn [negb]. eexists. reflexivity.
Qed.

(** Scenario B: ["DROP TABLE users"] in safe mode is denied and no query
    reaches the engine; ["SELECT 1"] is sent. *)
Lemma execute_sql_gate_witness :
  has (FEATURES safe_cfg) (js "database") = true
  /\ trim (js "DROP TABLE users") <> []
  /\ run (sbsh_execute_sql safe_cfg (engine_of users_catalog)
            (sql_call (js "DROP TABLE users") None))
     = ([], inl read_only_denial)
  /\ trim (js "SELECT 1") <> []
  /\ safety_check (READ_ONLY safe_cfg) (js "SELECT 1") = true
  /\ exists r, run (sbsh_execute_sql safe_cfg (engine_of users_catalog)
                      (sql_call (js "SELECT 1") None))
               = ([Connect; Query (Sql (js "SELECT 1")) []; Release], r).
Proof.
  assert (H1 : has (FEATURES safe_cfg) (js "database") = true) by reflexivity.
  assert (H2 : trim (js "DROP TABLE users") <> []) by (vm_compute; discriminate).
  assert (H3 : trim (js "SELECT 1") <> []) by (vm_compute; discriminate).
  assert (H4 : safety_check (READ_ONLY safe_cfg) (js "SELECT 1") = true)
    by (vm_compute; reflexivity).
  assert (H5 : safety_check (READ_ONLY safe_cfg) (js "DROP TABLE users") = false)
    by (vm_compute; reflexivity).
  split; [exact H1 | split; [exact H2 | split; [|split; [exact H3 | split; [exact H4|]]]]].
  - exact (proj2 (proj1 (proj2 (proj2 (proj2 (proj2 (proj2 execute_sql_gate))))
                           safe_cfg (engine_of users_catalog)
                           (sql_call (js "DROP TABLE users") None)
                           (js "DROP TABLE users") H1 eq_refl H2)) H5).
  - exact (proj2 (proj2 (proj2 (proj2 (proj2 (proj2 execute_sql_gate))))
                    safe_cfg (engine_of users_catalog)
                    (sql_call (js "SELECT 1") None)
                    (js "SELECT 1") H1 eq_refl H3) H4 eq_refl).
Defined.

(** ** The classifier and the deny-list *)

Lemma firstn_plus (A : Type) (n m : nat) (l : list A) :
  firstn (n + m) l = firstn n l ++ firstn m (skipn n l).
Proof.
  revert l; induction n as [|n IH]; intros l; [reflexivity|].
  destruct l as [|x l]; simpl; [destruct m; reflexivity|].
  rewrite IH. reflexivity.
Qed.

Lemma sub_app (s : str) (i n m : nat) :
  sub s i (n + m) = sub s i n ++ sub s (i + n) m.
Proof.
  unfold sub. rewrite firstn_plus, skipn_skipn, (Nat.add_comm n i). reflexivity.
Qed.

Lemma same_ic_length (a b : str) :
  same_ignoring_case a b = true -> length a = length b.
Proof.
  revert b; induction a as [|x a IH]; intros [|y b]; simpl; try discriminate; auto.
  intros H. apply andb_true_iff in H as [_ H]. f_equal. apply IH, H.
Qed.

Lemma same_ic_app (a1 a2 b1 b2 : str) :
  length a1 = length b1 ->
  same_ignoring_case (a1 ++ a2) (b1 ++ b2)
  = same_ignoring_case a1 b1 && same_ignoring_case a2 b2.
Proof.
  revert b1; induction a1 as [|x a1 IH]; intros [|y b1]; simpl; try discriminate.
  - reflexivity.
  - intros H. injection H as H. rewrite IH by exact H. apply andb_assoc.
Qed.

Lemma sub_length (s : str) (i n : nat) : length (sub s i n) <= n.
Proof. unfold sub. rewrite length_firstn. lia. Qed.

(** A literal occurrence of two keywords with one space between them is an
    occurrence of the two-keyword token. *)
Lemma spaced_keywords_at (w1 w2 s : str) (i : nat) :
  occurs_at (w1 ++ 32%N :: w2) s i = true ->
  token_at (Keywords w1 w2) s i = true.
Proof.
  unfold occurs_at. cbn [token_at]. intros H.
  apply andb_true_iff in H as [Hs Hw].
  rewrite length_app in Hs, Hw. cbn [length] in Hs, Hw.
  replace (length w1 + S (length w2)) with (length w1 + (1 + length w2)) in Hs, Hw by lia.
  assert (Hfit : length (sub s i (length w1 + (1 + length w2))) <= length s).
  { unfold sub. rewrite length_firstn, length_skipn. lia. }
  rewrite sub_app, sub_app in Hs, Hfit.
  change (32%N :: w2) with ([32%N] ++ w2) in Hs.
  assert (Hlen := same_ic_length _ _ Hs).
  repeat rewrite length_app in Hlen. repeat rewrite length_app in Hfit.
  cbn [length] in Hlen.
  pose proof (sub_length s i (length w1)).
  pose proof (sub_length s (i + length w1) 1).
  pose proof (sub_length s (i + length w1 + 1) (length w2)).
  rewrite same_ic_app in Hs by lia.
  rewrite same_ic_app in Hs by (simpl; lia).
  apply andb_true_iff in Hs as [Hs1 Hs]. apply andb_true_iff in Hs as [Hsp Hs2].
  apply existsb_exists. exists 1. split.
  - apply in_seq. lia.
  - rewrite Hs1, Hs2. cbn [andb].
    replace (i + length w1 + 1 + length w2) with (i + (length w1 + (1 + length w2))) by lia.
    rewrite Hw, andb_true_r. unfold spaces_at.
    destruct (sub s (i + length w1) 1) as [|x [|y l]];
      [discriminate Hsp | | simpl in H0; lia].
    simpl in Hsp. rewrite andb_true_r in Hsp. apply N.eqb_eq in Hsp.
    simpl. rewrite andb_true_r.
    assert (x = 32%N) by (revert Hsp; clear; nbool).
    subst x. reflexivity.
Qed.

Lemma In_existsb_token (tok : token) (s : str) (i : nat) :
  In tok deny_tokens -> i <= length s -> token_at tok s i = true ->
  contains_deny_token s = true.
Proof.
  intros Hin Hi H. apply existsb_exists. exists tok. split; [exact Hin|].
  apply existsb_exists. exists i. split; [apply in_seq; lia | exact H].
Qed.

Lemma classify_contains (s : str) :
  classify_is_mutating s = true -> contains_deny_token s = true.
Proof.
  unfold classify_is_mutating, contains_token. intros H.
  apply existsb_exists in H as [tok [Hin H]].
  apply existsb_exists in H as [i [Hi H]]. apply in_seq in Hi.
  assert (Hi' : i <= length s) by lia.
  unfold deny_list in Hin. cbn [In] in Hin.
  repeat (destruct Hin as [<-|Hin];
          [ first [ apply (@In_existsb_token (Keywords (js "SET") (js "ROLE")) s i);
                    [cbn; tauto | exact Hi' | apply spaced_keywords_at; exact H]
                  | match type of H with
                    | occurs_at ?w s i = true =>
                        apply (@In_existsb_token (Keyword w) s i);
                        [cbn; tauto | exact Hi' | exact H]
                    end ] | ]).
  destruct Hin.
Qed.

(** C2, as the code has it.  [isMutatingSql S] holds if and only if [S]
    contains, as a whole word and up to case, a token of the deny-list, where
    the token SET ROLE is the keyword SET, one or more whitespace characters
    and the keyword ROLE; in particular every statement that contains a
    token of the list as the specification prints it is classified as
    mutating. *)
Theorem isMutatingSql_deny_list (S : str) :
  (isMutatingSql S = true <-> contains_deny_token S = true)
  /\ (classify_is_mutating S = true -> isMutatingSql S = true).
Proof.
  rewrite isMutatingSql_tokens. split; [tauto | apply classify_contains].
Qed.

Lemma isMutatingSql_deny_list_witness :
  classify_is_mutating (js "select 1; Drop table t") = true
  /\ isMutatingSql (js "select 1; Drop table t") = true.
Proof.
  assert (H : classify_is_mutating (js "select 1; Drop table t") = true)
    by (vm_compute; reflexivity).
  split; [exact H|].
  exact (proj2 (isMutatingSql_deny_list (js "select 1; Drop table t")) H).
Defined.

(** C2 as stated fails: with two spaces between SET and ROLE the statement
    is classified as mutating although no token of the printed deny-list
    stands in it. *)
Lemma classify_is_mutating_counterexample :
  ~ (isMutatingSql (js "SET  ROLE admin") = true
     <-> classify_is_mutating (js "SET  ROLE admin") = true).
Proof.
  intros [H _].
  assert (Hc : classify_is_mutating (js "SET  ROLE admin") = false)
    by (vm_compute; reflexivity).
  rewrite Hc in H. discriminate H. vm_compute. reflexivity.
Qed.

(** ** The row limit of sbsh_execute_sql *)

Lemma slice0_nonneg (A : Type) (l : list A) (limit : Z) :
  (0 <= limit)%Z -> slice0 l limit = firstn (Z.to_nat limit) l.
Proof.
  intros H. unfold slice0.
  destruct (Z.ltb_spec limit 0); [lia|].
  destruct (Z.le_ge_cases limit (Z.of_nat (length l))).
  - rewrite Z.min_l by assumption. reflexivity.
  - rewrite Z.min_r by assumption. rewrite Nat2Z.id.
    rewrite !firstn_all2; [reflexivity | lia | lia].
Qed.

Lemma slice0_negative (A : Type) (l : list A) (limit : Z) :
  (limit < 0)%Z ->
  slice0 l limit = firstn (Z.to_nat (Z.max 0 (Z.of_nat (length l) + limit))) l.
Proof.
  intros H. unfold slice0.
  destruct (Z.ltb_spec limit 0); [|lia].
  rewrite Z.max_comm. reflexivity.
Qed.

(** A call that passes every check and whose statement is not an EXPLAIN
    returns the engine's rows cut by [slice0]. *)
Lemma run_query_rows (cfg : Config) (eng : Engine) (params : Params) (S : str)
    (result : QueryResult) :
  has (FEATURES cfg) (js "database") = true ->
  String_ (nullish (arg_sql params) (VStr [])) = S ->
  trim S <> [] ->
  safety_check (READ_ONLY cfg) S = true ->
  isExplain S = false ->
  pool_connect eng = None ->
  run_sql eng S = inr result ->
  run (sbsh_execute_sql cfg eng params)
  = ([Connect; Query (Sql S) []; Release],
     inr (QueryRows (slice0 (rows result) (effective_limit params))
                    (rowCount result)
                    (Z.ltb (effective_limit params) (Z.of_nat (length (rows result))))
                    (fields result))).
Proof.
  intros Hfeat HS Hne Hsafe Hex Hconn Hrun.
  rewrite run_execute_sql. cbv zeta.
  rewrite Hfeat, HS, (falsy_str_false Hne), Hsafe, Hconn, Hrun, Hex. reflexivity.
Qed.

(** C3, for limits that are not negative.  For a call that passes the gate
    with a statement that is not an EXPLAIN, over a result set of [N] rows
    and with requested limit [L >= 0] (100 when omitted): the rows returned
    are the first [min L 1000] of the result, their number is
    [min N (min L 1000)], and [truncated] is [N > min L 1000]. *)
Theorem row_limit_law (cfg : Config) (eng : Engine) (params : Params) (S : str)
    (result : QueryResult) (L : Z) :
  has (FEATURES cfg) (js "database") = true ->
  String_ (nullish (arg_sql params) (VStr [])) = S ->
  trim S <> [] ->
  safety_check (READ_ONLY cfg) S = true ->
  isExplain S = false ->
  pool_connect eng = None ->
  run_sql eng S = inr result ->
  requested_limit params = L ->
  (0 <= L)%Z ->
  let N := Z.of_nat (length (rows result)) in
  let clamped := Z.min L 1000 in
  exists returned,
    outcome (sbsh_execute_sql cfg eng params)
    = inr (QueryRows returned (rowCount result) (Z.gtb N clamped) (fields result))
    /\ returned = firstn (Z.to_nat clamped) (rows result)
    /\ Z.of_nat (length returned) = Z.min N clamped.
Proof.
  intros Hfeat HS Hne Hsafe Hex Hconn Hrun HL Hpos N clamped.
  unfold outcome.
  rewrite (run_query_rows cfg eng params Hfeat HS Hne Hsafe Hex Hconn Hrun).
  cbn [snd]. unfold effective_limit. rewrite HL. fold clamped. fold N.
  assert (Hc : (0 <= clamped)%Z) by (unfold clamped; lia).
  exists (firstn (Z.to_nat clamped) (rows result)).
  rewrite (slice0_nonneg _ Hc), Z.gtb_ltb. split; [reflexivity|].
  split; [reflexivity|]. rewrite length_firstn. unfold N. lia.
Qed.

(** Scenario C: 1500 rows and no limit give 100 rows and [truncated]. *)
Lemma row_limit_law_witness :
  has (FEATURES safe_cfg) (js "database") = true
  /\ trim (js "SELECT * FROM t") <> []
  /\ safety_check (READ_ONLY safe_cfg) (js "SELECT * FROM t") = true
  /\ isExplain (js "SELECT * FROM t") = false
  /\ requested_limit (sql_call (js "SELECT * FROM t") None) = 100%Z
  /\ exists returned,
       outcome (sbsh_execute_sql safe_cfg (engine_of big_catalog)
                  (sql_call (js "SELECT * FROM t") None))
       = inr (QueryRows returned (VNum 1500) true [])
       /\ returned = firstn 100 (repeat VNull 1500)
       /\ Z.of_nat (length returned) = 100%Z.
Proof.
  assert (H1 : has (FEATURES safe_cfg) (js "database") = true) by reflexivity.
  assert (H2 : trim (js "SELECT * FROM t") <> []) by (vm_compute; discriminate).
  assert (H3 : safety_check (READ_ONLY safe_cfg) (js "SELECT * FROM t") = true)
    by (vm_compute; reflexivity).
  assert (H4 : isExplain (js "SELECT * FROM t") = false) by (vm_compute; reflexivity).
  assert (H5 : requested_limit (sql_call (js "SELECT * FROM t") None) = 100%Z)
    by reflexivity.
  split; [exact H1 | split; [exact H2 | split; [exact H3 | split; [exact H4 |
    split; [exact H5|]]]]].
  exact (@row_limit_law safe_cfg (engine_of big_catalog)
           (sql_call (js "SELECT * FROM t") None) (js "SELECT * FROM t")
           {| rows := repeat VNull 1500; rowCount := VNum 1500; fields := [] |}
           100%Z H1 eq_refl H2 H3 H4 eq_refl eq_refl H5 ltac:(lia)).
Defined.

(** C3 as stated fails for a negative limit: with 3 rows and limit -1 two
    rows come back, and [min 3 (min (-1) 1000)] is no row count at all. *)
Lemma row_limit_law_counterexample :
  outcome (sbsh_execute_sql safe_cfg (engine_of users_catalog)
             (sql_call (js "SELECT * FROM t") (Some (-1)%Z)))
  = inr (QueryRows [VNum 1; VNum 2] (VNum 3) true [])
  /\ Z.of_nat (length [VNum 1; VNum 2])
     <> Z.min (Z.of_nat (length (cat_rows users_catalog))) (Z.min (-1) 1000).
Proof.
  split; [vm_compute; reflexivity | vm_compute; discriminate].
Qed.

(** C9.  With a negative limit [L] the limit is not clamped from below: the
    rows returned are [slice0 rows L], that is the first [max 0 (N + L)]
    rows, and [truncated] is [true] whatever [N] is. *)
Theorem negative_limit (cfg : Config) (eng : Engine) (params : Params) (S : str)
    (result : QueryResult) (L : Z) :
  has (FEATURES cfg) (js "database") = true ->
  String_ (nullish (arg_sql params) (VStr [])) = S ->
  trim S <> [] ->
  safety_check (READ_ONLY cfg) S = true ->
  isExplain S = false ->
  pool_connect eng = None ->
  run_sql eng S = inr result ->
  requested_limit params = L ->
  (L < 0)%Z ->
  let N := Z.of_nat (length (rows result)) in
  effective_limit params = L
  /\ outcome (sbsh_execute_sql cfg eng params)
     = inr (QueryRows (slice0 (rows result) L) (rowCount result) true (fields result))
  /\ slice0 (rows result) L = firstn (Z.to_nat (Z.max 0 (N + L))) (rows result)
  /\ length (slice0 (rows result) L) = Z.to_nat (Z.max 0 (N + L))
  /\ Z.gtb N L = true.
Proof.
  intros Hfeat HS Hne Hsafe Hex Hconn Hrun HL Hneg N.
  assert (He : effective_limit params = L) by (unfold effective_limit; lia).
  assert (Ht : Z.ltb L N = true) by (apply Z.ltb_lt; unfold N; lia).
  unfold outcome.
  rewrite (run_query_rows cfg eng params Hfeat HS Hne Hsafe Hex Hconn Hrun).
  cbn [snd]. rewrite He. fold N. rewrite Ht, Z.gtb_ltb, Ht.
  rewrite (slice0_negative _ Hneg). fold N.
  repeat split. rewrite length_firstn. unfold N. lia.
Qed.

Lemma negative_limit_witness :
  requested_limit (sql_call (js "SELECT * FROM t") (Some (-2)%Z)) = (-2)%Z
  /\ outcome (sbsh_execute_sql safe_cfg (engine_of users_catalog)
                (sql_call (js "SELECT * FROM t") (Some (-2)%Z)))
     = inr (QueryRows (slice0 [VNum 1; VNum 2; VNum 3] (-2)) (VNum 3) true []).
Proof.
  assert (H1 : has (FEATURES safe_cfg) (js "database") = true) by reflexivity.
  assert (H2 : trim (js "SELECT * FROM t") <> []) by (vm_compute; discriminate).
  assert (H3 : safety_check (READ_ONLY safe_cfg) (js "SELECT * FROM t") = true)
    by (vm_compute; reflexivity).
  assert (H4 : isExplain (js "SELECT * FROM t") = false) by (vm_compute; reflexivity).
  split; [reflexivity|].
  exact (proj1 (proj2 (@negative_limit safe_cfg (engine_of users_catalog)
           (sql_call (js "SELECT * FROM t") (Some (-2)%Z)) (js "SELECT * FROM t")
           {| rows := [VNum 1; VNum 2; VNum 3]; rowCount := VNum 3; fields := [] |}
           (-2)%Z H1 eq_refl H2 H3 H4 eq_refl eq_refl eq_refl ltac:(lia)))).
Defined.

(** ** Table names in sbsh_get_table_doc *)

Lemma split_dot_shape (s : str) :
  split_dot s = upto_dot s :: (if includes_dot s then split_dot (after_dot s) else []).
Proof.
  unfold split_dot. induction s as [|c s IH]; [reflexivity|].
  cbn [split_on upto_dot after_dot includes_dot existsb].
  rewrite (N.eqb_sym dot c).
  destruct (N.eqb c dot); [reflexivity|].
  rewrite IH. reflexivity.
Qed.

Lemma resolve_table_spec (T : str) :
  resolve_table T
  = if includes_dot T
    then (VStr (upto_dot T), VStr (upto_dot (after_dot T)))
    else (VStr (js "public"), VStr T).
Proof.
  unfold resolve_table. destruct (includes_dot T) eqn:E; [|reflexivity].
  rewrite split_dot_shape, E, (split_dot_shape (after_dot T)). reflexivity.
Qed.

(** C5, as the code has it.  A table name without a dot resolves to schema
    ["public"] and the name itself, so ["users"] is [public.users]; a name
    with a dot resolves to the text before its first dot and the text
    between its first and second dots (all that follows the first dot when
    there is no second).  No identifier is checked: with the docs feature on
    and a name that is not empty, the pair is what the first query is issued
    with, whatever it is. *)
Theorem table_name_resolution :
  (forall T, includes_dot T = false -> resolve_table T = (VStr (js "public"), VStr T))
  /\ (forall T, includes_dot T = true ->
      resolve_table T = (VStr (upto_dot T), VStr (upto_dot (after_dot T))))
  /\ (forall T, includes_dot T = true -> includes_dot (after_dot T) = false ->
      resolve_table T = (VStr (upto_dot T), VStr (after_dot T)))
  /\ resolve_table (js "users") = (VStr (js "public"), VStr (js "users"))
  /\ (forall (cfg : Config) (eng : Engine) (params : Params) (T : str),
        has (FEATURES cfg) (js "docs") = true ->
        String_ (nullish (arg_table params) (VStr [])) = T ->
        T <> [] ->
        pool_connect eng = None ->
        exists rest r,
          run (sbsh_get_table_doc cfg eng params)
          = (Connect
               :: Query DocColumnsQuery [fst (resolve_table T); snd (resolve_table T)]
               :: rest, r)).
Proof.
  split; [|split; [|split; [|split]]].
  - intros T E. rewrite resolve_table_spec, E. reflexivity.
  - intros T E. rewrite resolve_table_spec, E. reflexivity.
  - intros T E E'. rewrite resolve_table_spec, E.
    assert (H : upto_dot (after_dot T) = after_dot T).
    { generalize (after_dot T) E'. clear. intros s. induction s as [|c s IH]; [reflexivity|].
      cbn [includes_dot existsb upto_dot]. rewrite (N.eqb_sym dot c).
      destruct (N.eqb c dot); [discriminate|]. intros H. f_equal. apply IH, H. }
    rewrite H. reflexivity.
  - reflexivity.
  - intros cfg eng params T Hfeat HT Hne Hconn.
    rewrite run_get_table_doc. cbv zeta. rewrite Hfeat, HT, (falsy_str_false Hne), Hconn.
    cbn [negb].
    destruct (run_doc_columns eng _ _); [eexists; eexists; reflexivity|].
    destruct (run_doc_constraints eng _ _); eexists; eexists; reflexivity.
Qed.

Lemma table_name_resolution_witness :
  includes_dot (js "users") = false
  /\ resolve_table (js "users") = (VStr (js "public"), VStr (js "users"))
  /\ includes_dot (js "a.b.c") = true
  /\ resolve_table (js "a.b.c") = (VStr (js "a"), VStr (js "b"))
  /\ includes_dot (js "auth.users") = true
  /\ includes_dot (after_dot (js "auth.users")) = false
  /\ resolve_table (js "auth.users") = (VStr (js "auth"), VStr (js "users"))
  /\ has (FEATURES safe_cfg) (js "docs") = true
  /\ js "users" <> []
  /\ exists rest r,
       run (sbsh_get_table_doc safe_cfg (engine_of users_catalog)
              (table_call (VStr (js "users"))))
       = (Connect :: Query DocColumnsQuery [VStr (js "public"); VStr (js "users")]
            :: rest, r).
Proof.
  assert (H0 : includes_dot (js "users") = false) by reflexivity.
  assert (Ha : includes_dot (js "a.b.c") = true) by reflexivity.
  assert (H1 : includes_dot (js "auth.users") = true) by reflexivity.
  assert (H2 : includes_dot (after_dot (js "auth.users")) = false) by reflexivity.
  assert (H3 : has (FEATURES safe_cfg) (js "docs") = true) by reflexivity.
  assert (H4 : js "users" <> []) by (vm_compute; discriminate).
  split; [exact H0 | split; [|split; [exact Ha | split; [|split; [exact H1 |
    split; [exact H2 | split; [|split; [exact H3 | split; [exact H4|]]]]]]]]].
  - exact (proj1 table_name_resolution (js "users") H0).
  - exact (proj1 (proj2 table_name_resolution) (js "a.b.c") Ha).
  - exact (proj1 (proj2 (proj2 table_name_resolution)) (js "auth.users") H1 H2).
  - exact (proj2 (proj2 (proj2 (proj2 table_name_resolution)))
             safe_cfg (engine_of users_catalog) (table_call (VStr (js "users")))
             (js "users") H3 eq_refl H4 eq_refl).
Defined.

(** C5 as stated fails when the name has a second dot: ["a.b.c"] resolves
    to table ["b"], not to all that follows the first dot. *)
Lemma table_name_resolution_counterexample :
  includes_dot (js "a.b.c") = true
  /\ upto_dot (js "a.b.c") = js "a"
  /\ after_dot (js "a.b.c") = js "b.c"
  /\ resolve_table (js "a.b.c") = (VStr (js "a"), VStr (js "b"))
  /\ resolve_table (js "a.b.c")
     <> (VStr (upto_dot (js "a.b.c")), VStr (after_dot (js "a.b.c"))).
Proof.
  repeat split; vm_compute; discriminate.
Qed.

(** ** Feature gating *)

Lemma listTools_governing (cfg : Config) (toolName : str) :
  In toolName (listTools cfg)
  <-> exists feature, governing_feature toolName = Some feature
                      /\ has (FEATURES cfg) feature = true.
Proof.
  unfold listTools, governing_feature.
  destruct (has (FEATURES cfg) (js "database")) eqn:Hd;
  destruct (has (FEATURES cfg) (js "postgrest")) eqn:Hp;
  destruct (has (FEATURES cfg) (js "docs")) eqn:Ho;
  cbn [app In]; (split;
    [ intros H; repeat (destruct H as [<-|H]; [eexists; split; [reflexivity|assumption]|]);
      destruct H
    | intros [f [Hg Hf]];
      repeat match type of Hg with
             | (if str_eqb ?a ?b then _ else _) = _ => by_key a b
             end;
      try discriminate; injection Hg as <-; try congruence; tauto ]).
Qed.




(** ** Validation of the arguments *)

Lemma drop_space_blank (s : str) : forallb is_space s = true -> drop_space s = [].
Proof.
  induction s as [|c s IH]; [reflexivity|]. cbn [forallb drop_space].
  intros H. apply andb_true_iff in H as [Hc Hs]. rewrite Hc. apply IH, Hs.
Qed.

Lemma trim_blank (s : str) : forallb is_space s = true -> trim s = [].
Proof. intros H. unfold trim. rewrite (drop_space_blank s H). reflexivity. Qed.

(** C8, as the code has it.  [sbsh_execute_sql] called with an [sql] that
    is missing, [null], empty or made of whitespace only (its text trims to
    the empty string) fails before anything reaches the engine: the trace
    is empty, and the error is the validation error "SQL query is required"
    when the database feature is on, the feature error when it is off.
    Likewise [sbsh_get_table_doc] with a [table] that is missing, [null] or
    empty fails with "Table name is required" when the docs feature is on,
    with the feature error when it is off, and an empty trace. *)
Theorem argument_validation (cfg : Config) (eng : Engine) (params : Params) :
  (trim (String_ (nullish (arg_sql params) (VStr []))) = [] ->
   run (sbsh_execute_sql cfg eng params)
   = ([], inl (if has (FEATURES cfg) (js "database") then sql_required
               else feature_disabled (js "database"))))
  /\ (String_ (nullish (arg_table params) (VStr [])) = [] ->
      run (sbsh_get_table_doc cfg eng params)
      = ([], inl (if has (FEATURES cfg) (js "docs") then table_required
                  else feature_disabled (js "docs"))))
  /\ (forall v, v = VUndefined \/ v = VNull \/ v = VStr []
                \/ (exists s, v = VStr s /\ forallb is_space s = true) ->
                trim (String_ (nullish v (VStr []))) = [])
  /\ (forall v, v = VUndefined \/ v = VNull \/ v = VStr [] ->
                String_ (nullish v (VStr [])) = []).
Proof.
  split; [|split; [|split]].
  - intros Hblank. rewrite run_execute_sql. cbv zeta. rewrite Hblank.
    destruct (has (FEATURES cfg) (js "database")); reflexivity.
  - intros Hblank. rewrite run_get_table_doc. cbv zeta. rewrite Hblank.
    destruct (has (FEATURES cfg) (js "docs")); reflexivity.
  - intros v [->|[->|[->|[s [-> Hs]]]]]; try reflexivity.
    cbn [nullish String_]. apply trim_blank, Hs.
  - intros v [->|[->| ->]]; reflexivity.
Qed.

Lemma argument_validation_witness :
  trim (String_ (nullish (arg_sql (sql_call (js "   ") None)) (VStr []))) = []
  /\ run (sbsh_execute_sql safe_cfg (engine_of users_catalog) (sql_call (js "   ") None))
     = ([], inl sql_required)
  /\ String_ (nullish (arg_table no_params) (VStr [])) = []
  /\ run (sbsh_get_table_doc safe_cfg (engine_of users_catalog) no_params)
     = ([], inl table_required)
  /\ trim (String_ (nullish VNull (VStr []))) = []
  /\ String_ (nullish (VStr []) (VStr [])) = [].
Proof.
  assert (H1 : trim (String_ (nullish (arg_sql (sql_call (js "   ") None)) (VStr []))) = [])
    by (vm_compute; reflexivity).
  assert (H2 : String_ (nullish (arg_table no_params) (VStr [])) = []) by reflexivity.
  split; [exact H1 | split; [|split; [exact H2 | split; [|split]]]].
  - exact (proj1 (argument_validation safe_cfg (engine_of users_catalog)
                    (sql_call (js "   ") None)) H1).
  - exact (proj1 (proj2 (argument_validation safe_cfg (engine_of users_catalog)
                           no_params)) H2).
  - exact (proj1 (proj2 (proj2 (argument_validation safe_cfg (engine_of users_catalog)
                                  no_params)))
             VNull (or_intror (or_introl eq_refl))).
  - exact (proj2 (proj2 (proj2 (argument_validation safe_cfg (engine_of users_catalog)
                                  no_params)))
             (VStr []) (or_intror (or_intror eq_refl))).
Defined.

(** C8 as stated fails when the feature is off: the feature check comes
    first, so a call without [sql] then fails with the feature error, which
    is not the validation error. *)
Lemma argument_validation_counterexample :
  arg_sql no_params = VUndefined
  /\ run (sbsh_execute_sql bare_cfg (engine_of users_catalog) no_params)
     = ([], inl (feature_disabled (js "database")))
  /\ feature_disabled (js "database") <> sql_required.
Proof.
  split; [reflexivity | split; [reflexivity|]].
  vm_compute. discriminate.
Qed.

(** ** The schemas argument of sbsh_introspect_schema *)




(** ** The digest *)






Lemma render_column_of (row : ColumnRow) :
  render_column (column_of row) = render_row row.
Proof. reflexivity. Qed.

(** C6.  Every entry of the digest is the rendering of one entry of the
    map: its [cols] are the entry's columns printed as [name:type], with
    [!] appended exactly when the column is not nullable, [idx_count] and
    [cons_count] are the lengths of the entry's indexes and constraints,
    and [rls] says whether the entry has a policy.  In terms of the result
    sets: the columns are the table's column rows in order, marked unless
    [is_nullable] is ['YES'], and the counts are those of the table's index,
    constraint and policy rows. *)
Theorem digest_rendering (cols_ : list ColumnRow) (idx : list IndexRow)
    (cons_ : list ConstraintRow) (pols : list PolicyRow) (d : DigestEntry) :
  In d (digest_of (build_map cols_ idx cons_ pols)) ->
  (exists t, In (digest_key d, t) (build_map cols_ idx cons_ pols)
             /\ d_schema d = schema t /\ d_table d = table t
             /\ cols d = List.map (fun c => col_name c ++ js ":" ++ col_type c
                                            ++ (if nullable c then [] else js "!"))
                                  (columns t)
             /\ idx_count d = length (indexes t)
             /\ cons_count d = length (constraints t)
             /\ d_rls d = Nat.ltb 0 (length (rls t)))
  /\ cols d = List.map render_row (rows_of col_key (digest_key d) cols_)
  /\ idx_count d = length (rows_of idx_key (digest_key d) idx)
  /\ cons_count d = length (rows_of cons_key (digest_key d) cons_)
  /\ d_rls d = Nat.ltb 0 (length (rows_of rls_key (digest_key d) pols)).
Proof.
  intros Hin. unfold digest_of in Hin. apply in_map_iff in Hin as [[k t] [Hd Hin]].
  cbn [snd] in Hd. subst d.
  destruct (entry_build_map _ _ _ _ _ _ Hin) as [Hk [Hc [Hi [Hn Hp]]]].
  assert (Hkey : digest_key (digest_entry t) = k) by exact Hk.
  rewrite Hkey. split.
  - exists t. repeat split; try reflexivity. exact Hin.
  - cbn [digest_entry cols idx_count cons_count d_rls].
    rewrite Hc, Hi, Hn, Hp, !length_map, map_map.
    repeat split.
Qed.

Lemma digest_rendering_witness :
  In {| d_schema := js "public"; d_table := js "users";
        cols := [js "id:uuid!"; js "email:text"];
        idx_count := 1; cons_count := 1; d_rls := true |}
     (digest_of (build_map (cat_columns users_catalog) (cat_indexes users_catalog)
                           (cat_constraints users_catalog) (cat_policies users_catalog)))
  /\ [js "id:uuid!"; js "email:text"]
     = List.map render_row (cat_columns users_catalog).
Proof.
  assert (H : In {| d_schema := js "public"; d_table := js "users";
                    cols := [js "id:uuid!"; js "email:text"];
                    idx_count := 1; cons_count := 1; d_rls := true |}
                 (digest_of (build_map (cat_columns users_catalog)
                               (cat_indexes users_catalog)
                               (cat_constraints users_catalog)
                               (cat_policies users_catalog))))
    by (left; reflexivity).
  split; [exact H|].
  exact (proj1 (proj2 (digest_rendering _ _ _ _ _ H))).
Defined.
